(** * Spectral differentiation and the Okubo-Weiss field

    A shallow embedding of [src/functions.py] in exact real arithmetic.

    - A NumPy array of floats is a list of [R]; a two-dimensional array is
      the list of its rows, [rect n m A] saying that its shape is [(n, m)].
      An array without rows is the empty list.
    - A complex number is a pair of reals.
    - The library calls the source makes ([np.fft.fftfreq], [scipy.fft.fft],
      [scipy.fft.ifft], [scipy.fftpack.fft2], [scipy.fftpack.ifft2],
      [np.meshgrid], [np.concatenate], the broadcasting of binary operators,
      [np.max]) are written out from their documented meaning; the Fourier
      transforms are the exact discrete transforms.
    - A Python exception is a value of [exn], and a function that may raise
      returns a [result].
    - [np.random.rand] and [scipy.ndimage.gaussian_filter] are parameters of
      [getRandomStreamFunction].

    Rounding is outside this model: a statement "up to tolerance" is proved
    here as an exact equality, or refuted by an exact difference. *)

From Stdlib Require Import Reals Lra Lia List Arith ZArith Bool.
Import ListNotations.
Open Scope R_scope.

(** ** Complex numbers *)

Definition C : Type := (R * R)%type.

Definition RtoC (x : R) : C := (x, 0).
Definition C0 : C := (0, 0).
Definition C1 : C := (1, 0).
Definition Ci : C := (0, 1).
Definition Cre (z : C) : R := fst z.
Definition Cim (z : C) : R := snd z.
Definition Cadd (a b : C) : C := (fst a + fst b, snd a + snd b).
Definition Cmul (a b : C) : C :=
  (fst a * fst b - snd a * snd b, fst a * snd b + snd a * fst b).
Definition Copp (a : C) : C := (- fst a, - snd a).
Definition Csub (a b : C) : C := Cadd a (Copp b).
Definition Cconj (a : C) : C := (fst a, - snd a).
Definition Cexp (t : R) : C := (cos t, sin t).

(** [Csum f n] is [f 0 + f 1 + ... + f (n-1)]. *)
Fixpoint Csum (f : nat -> C) (n : nat) : C :=
  match n with
  | O => C0
  | S n' => Cadd (Csum f n') (f n')
  end.

Fixpoint Rsum (f : nat -> R) (n : nat) : R :=
  match n with
  | O => 0
  | S n' => Rsum f n' + f n'
  end.

(** ** Exceptions *)

Inductive exn : Type :=
| ZeroDivisionError
| ValueError
| IndexError.

Inductive result (A : Type) : Type :=
| Ok (a : A)
| Raise (e : exn).
Arguments Ok {A} a.
Arguments Raise {A} e.

Definition bind {A B : Type} (c : result A) (k : A -> result B) : result B :=
  match c with
  | Ok a => k a
  | Raise e => Raise e
  end.

Notation "x <- c ;; k" := (bind c (fun x => k))
  (at level 61, c at next level, right associativity).

(** ** Arrays *)

Abbreviation vec := (list R) (only parsing).
Abbreviation field := (list (list R)) (only parsing).
Abbreviation cvec := (list C) (only parsing).
Abbreviation cfield := (list (list C)) (only parsing).

Definition nrows {T : Type} (A : list (list T)) : nat := length A.
Definition ncols {T : Type} (A : list (list T)) : nat := length (hd [] A).

(** [rect n m A]: the array [A] has shape [(n, m)]. *)
Definition rect {T : Type} (n m : nat) (A : list (list T)) : Prop :=
  length A = n /\ Forall (fun row => length row = m) A.

Definition get (A : field) (r c : nat) : R := nth c (nth r A []) 0.
Definition cget (A : cfield) (r c : nat) : C := nth c (nth r A []) C0.

Fixpoint zipWith {A B D : Type} (f : A -> B -> D) (xs : list A) (ys : list B)
  : list D :=
  match xs, ys with
  | x :: xs', y :: ys' => f x y :: zipWith f xs' ys'
  | _, _ => []
  end.

(** [array[:, j]] and [array.T] *)
Definition column (j : nat) (A : field) : vec := map (fun row => nth j row 0) A.

Definition transpose (A : field) : field :=
  map (fun j => column j A) (seq 0 (ncols A)).

(** ** Library functions *)

(** [np.arange(a, b, dtype=int)] *)
Definition arange (a b : Z) : list Z :=
  map (fun i => (a + Z.of_nat i)%Z) (seq 0 (Z.to_nat (b - a))).

(** [np.fft.fftfreq(n, d)]:
<<
    val = 1.0 / (n * d)
    results = empty(n, int)
    N = (n-1)//2 + 1
    p1 = arange(0, N, dtype=int);     results[:N] = p1
    p2 = arange(-(n//2), 0, dtype=int); results[N:] = p2
    return results * val
>>
    [n] is a Python integer, so [n = 0] raises on the first line. *)
Definition fftfreq (n : nat) (d : R) : result vec :=
  if (n =? 0)%nat then Raise ZeroDivisionError
  else
    let val := 1 / (INR n * d) in
    let N := ((n - 1) / 2 + 1)%nat in
    let p1 := arange 0 (Z.of_nat N) in
    let p2 := arange (- Z.of_nat (n / 2)) 0 in
    Ok (map (fun z => IZR z * val) (p1 ++ p2)).

(** The discrete Fourier transform [y[k] = sum_m x[m] exp(-2 pi i k m / n)]. *)
Definition dft (x : cvec) : cvec :=
  let n := length x in
  map (fun k =>
         Csum (fun m => Cmul (nth m x C0)
                             (Cexp (- (2 * PI * INR k * INR m / INR n)))) n)
      (seq 0 n).

(** Its inverse [x[m] = 1/n sum_k y[k] exp(2 pi i k m / n)]. *)
Definition idft (y : cvec) : cvec :=
  let n := length y in
  map (fun m =>
         Cmul (RtoC (1 / INR n))
              (Csum (fun k => Cmul (nth k y C0)
                                   (Cexp (2 * PI * INR k * INR m / INR n))) n))
      (seq 0 n).

(** [scipy.fft.fft] and [scipy.fft.ifft] reject an empty array. *)
Definition fft (x : cvec) : result cvec :=
  match x with
  | [] => Raise ValueError
  | _ => Ok (dft x)
  end.

Definition ifft (y : cvec) : result cvec :=
  match y with
  | [] => Raise ValueError
  | _ => Ok (idft y)
  end.

(** ** [spectralDeriv] *)

Definition spectralDeriv (array : vec) : result vec :=
  let N := length array in
  f <- fftfreq N 1 ;;
  let freqs := map (fun v => v * 2 * PI) f in
  X <- fft (map RtoC array) ;;
  y <- ifft (zipWith Cmul (map (fun w => Cmul Ci (RtoC w)) freqs) X) ;;
  Ok (map Cre y).

(** The integer mode number at index [k] of a transform of length [n]:
    [k] itself in the lower half, [k - n] in the upper half. *)
Definition mode (n k : nat) : Z :=
  if (k <=? (n - 1) / 2)%nat then Z.of_nat k else (Z.of_nat k - Z.of_nat n)%Z.

(** The angular frequency [2 pi k / n] of that mode. *)
Definition omega (n k : nat) : R := 2 * PI * IZR (mode n k) / INR n.

(** ** Broadcasting, concatenation, reductions *)

(** The common length of two axes under NumPy's broadcasting rule. *)
Definition bdim (a b : nat) : option nat :=
  if (a =? b)%nat then Some a
  else if (a =? 1)%nat then Some b
  else if (b =? 1)%nat then Some a
  else None.

(** An axis of length one is repeated [n] times; any other axis is kept. *)
Definition stretch {T : Type} (n : nat) (l : list T) : list T :=
  match l with
  | [x] => repeat x n
  | _ => l
  end.

(** A binary operator applied elementwise to two 2D arrays. *)
Definition broadcast2 {A B D : Type} (f : A -> B -> D)
    (X : list (list A)) (Y : list (list B)) : result (list (list D)) :=
  match bdim (nrows X) (nrows Y), bdim (ncols X) (ncols Y) with
  | Some n, Some m =>
      Ok (zipWith (zipWith f) (stretch n (map (stretch m) X))
                              (stretch n (map (stretch m) Y)))
  | _, _ => Raise ValueError
  end.

(** [np.concatenate([A, B])] along axis 0: the row lengths must agree. *)
Definition concatenate (A B : field) : result field :=
  if (ncols A =? ncols B)%nat then Ok (A ++ B) else Raise ValueError.

(** [np.max] of a flattened array; it rejects an empty one. *)
Definition amax (l : list R) : result R :=
  match l with
  | [] => Raise ValueError
  | x :: l' => Ok (fold_left Rmax l' x)
  end.

(** [x.reshape(-1, 1)], [x.reshape(1, -1)] of a 1D array. *)
Definition reshape_col (x : vec) : field := map (fun v => [v]) x.
Definition reshape_row (x : vec) : field := [x].

(** [np.meshgrid(x, y)] with the default [indexing='xy']: both inputs are
    flattened; the first output repeats [x] along the rows, the second
    repeats [y] along the columns; both have shape [(len y, len x)]. *)
Definition meshgrid (x y : field) : field * field :=
  let xf := concat x in
  let yf := concat y in
  (map (fun _ => xf) yf, map (fun yv => map (fun _ => yv) xf) yf).

(** The two-dimensional transform
    [Y[u][v] = sum_r sum_c X[r][c] exp(-2 pi i u r / n) exp(-2 pi i v c / m)]
    and its inverse. *)
Definition dft2 (X : cfield) : cfield :=
  let n := nrows X in
  let m := ncols X in
  map (fun u => map (fun v =>
    Csum (fun r => Csum (fun c =>
      Cmul (cget X r c)
           (Cmul (Cexp (- (2 * PI * INR u * INR r / INR n)))
                 (Cexp (- (2 * PI * INR v * INR c / INR m))))) m) n)
    (seq 0 m)) (seq 0 n).

Definition idft2 (Y : cfield) : cfield :=
  let n := nrows Y in
  let m := ncols Y in
  map (fun r => map (fun c =>
    Cmul (RtoC (1 / (INR n * INR m)))
      (Csum (fun u => Csum (fun v =>
        Cmul (cget Y u v)
             (Cmul (Cexp (2 * PI * INR u * INR r / INR n))
                   (Cexp (2 * PI * INR v * INR c / INR m)))) m) n))
    (seq 0 m)) (seq 0 n).

Definition fft2 (X : cfield) : result cfield :=
  if ((nrows X =? 0) || (ncols X =? 0))%nat then Raise ValueError
  else Ok (dft2 X).

Definition ifft2 (Y : cfield) : result cfield :=
  if ((nrows Y =? 0) || (ncols Y =? 0))%nat then Raise ValueError
  else Ok (idft2 Y).

(** ** [ddx], [ddy] *)

(** The body of the [for slice_ in array[1:]] loop, [deriv] being the
    accumulated array. *)
Fixpoint deriv_loop (deriv : field) (slices : list vec) : result field :=
  match slices with
  | [] => Ok deriv
  | slice_ :: rest =>
      d <- spectralDeriv slice_ ;;
      deriv' <- concatenate deriv (reshape_row d) ;;
      deriv_loop deriv' rest
  end.

Definition ddx (array : field) : result field :=
  match array with
  | [] => Raise IndexError
  | row0 :: rest =>
      d0 <- spectralDeriv row0 ;;
      deriv_loop (reshape_row d0) rest
  end.

Definition ddy (array : field) : result field :=
  let array_T := transpose array in
  match array_T with
  | [] => Raise IndexError
  | row0 :: rest =>
      d0 <- spectralDeriv row0 ;;
      deriv <- deriv_loop (reshape_row d0) rest ;;
      Ok (transpose deriv)
  end.

(** ** [getVorticity] *)

Definition getVorticity (vx vy : field) : result field :=
  a <- ddx vy ;;
  b <- ddy vx ;;
  broadcast2 Rminus a b.

(** ** [getOkuboWeiss] *)

(** [2 * np.pi * 1j * k] for a real array [k]. *)
Definition two_pi_i : C := Cmul (RtoC (2 * PI)) Ci.
Definition ik (k : field) : cfield := map (map (fun v => Cmul two_pi_i (RtoC v))) k.
Definition csquare (X : cfield) : cfield := map (map (fun z => Cmul z z)) X.
Definition creal (X : cfield) : field := map (map Cre) X.

(** The three local arrays [psi_xy], [psi_xx], [psi_yy]. *)
Definition okubo_partials (psi : field) : result (field * field * field) :=
  let N := nrows psi in
  f1 <- fftfreq N 1 ;;
  f2 <- fftfreq N 1 ;;
  let '(kx, ky) := meshgrid (reshape_col f1) (reshape_row f2) in
  psi_hat <- fft2 (map (map RtoC) psi) ;;
  mxy <- broadcast2 Cmul (ik kx) (ik ky) ;;
  hxy <- broadcast2 Cmul mxy psi_hat ;;
  ixy <- ifft2 hxy ;;
  hxx <- broadcast2 Cmul (csquare (ik kx)) psi_hat ;;
  ixx <- ifft2 hxx ;;
  hyy <- broadcast2 Cmul (csquare (ik ky)) psi_hat ;;
  iyy <- ifft2 hyy ;;
  Ok (creal ixy, creal ixx, creal iyy).

Definition getOkuboWeiss (psi : field) : result field :=
  p <- okubo_partials psi ;;
  let '(psi_xy, psi_xx, psi_yy) := p in
  sq <- broadcast2 Rmult psi_xy psi_xy ;;
  pr <- broadcast2 Rmult psi_xx psi_yy ;;
  broadcast2 Rminus sq pr.

(** ** [getRandomStreamFunction] *)

Section Generator.
(** [rand N N] is the array [np.random.rand(N, N)] drew, and
    [gaussian_filter a sigma] is
    [scipy.ndimage.gaussian_filter(a, sigma, mode='wrap')]. *)
Variable rand : nat -> nat -> field.
Variable gaussian_filter : field -> R -> field.

Definition getRandomStreamFunction (N : nat) (sigma : R) : result field :=
  let pattern :=
    gaussian_filter (map (map (fun u => 2 * u - 1)) (rand N N)) sigma in
  max_val <- amax (map Rabs (concat pattern)) ;;
  if Req_dec_T max_val 0 then Raise ValueError
  else Ok (map (map (fun v => v / max_val)) pattern).
End Generator.

(** ** Formulas the code is compared with *)

(** The spectral derivative as the specification words it: the real part of
    the inverse transform of the forward transform of [x], the coefficient
    of index [k] multiplied by [i * omega k]; sample [n]. *)
Definition deriv_formula (x : vec) (n : nat) : R :=
  let N := length x in
  Cre (Cmul (RtoC (1 / INR N))
    (Csum (fun k =>
       Cmul (Cmul (Cmul Ci (RtoC (omega N k)))
                  (Csum (fun m =>
                     Cmul (RtoC (nth m x 0))
                          (Cexp (- (2 * PI * INR k * INR m / INR N)))) N))
            (Cexp (2 * PI * INR k * INR n / INR N))) N)).

(** All samples of the formula: what [spectralDeriv x] returns when it
    returns. *)
Definition deriv_table (x : vec) : vec :=
  map (deriv_formula x) (seq 0 (length x)).

(** The array of shape [(n, m)] with entry [F r c] at row [r], column [c]. *)
Definition tabulate {T : Type} (n m : nat) (F : nat -> nat -> T)
  : list (list T) :=
  map (fun r => map (F r) (seq 0 m)) (seq 0 n).

(** The multiplier [i * omega k] of the first derivative. *)
Definition iomega (N k : nat) : C := Cmul Ci (RtoC (omega N k)).

(** The kernel of "transform, multiply coefficient [k] by [g k], transform
    back": the response at sample [n] to a unit impulse at sample [m]. *)
Definition Kc (g : nat -> C) (N n m : nat) : C :=
  Cmul (RtoC (1 / INR N))
    (Csum (fun k =>
       Cmul (Cmul (g k) (Cexp (- (2 * PI * INR k * INR m / INR N))))
            (Cexp (2 * PI * INR k * INR n / INR N))) N).

(** The real matrix of [spectralDeriv] on sequences of length [N]. *)
Definition Dk (N n m : nat) : R := Cre (Kc (iomega N) N n m).

(** The computation of [test_continuity_from_stream_function_true]:
<<
    vx = ddy(psi); vy = -ddx(psi); divergence = ddx(vx) + ddy(vy)
>> *)
Definition stream_divergence (psi : field) : result field :=
  vx <- ddy psi ;;
  dpsi <- ddx psi ;;
  let vy := map (map Ropp) dpsi in
  a <- ddx vx ;;
  b <- ddy vy ;;
  broadcast2 Rplus a b.

(** The two-dimensional transform of a square real field, coefficient
    [(u, v)]: [u] is the mode along the rows (axis 0, the y coordinate) and
    [v] the mode along the columns (axis 1, the x coordinate). *)
Definition psi_hat_formula (psi : field) (u v : nat) : C :=
  let N := nrows psi in
  Csum (fun r => Csum (fun c =>
    Cmul (RtoC (get psi r c))
         (Cmul (Cexp (- (2 * PI * INR u * INR r / INR N)))
               (Cexp (- (2 * PI * INR v * INR c / INR N))))) N) N.

(** [i 2 pi kx] and [i 2 pi ky] at position [(u, v)] of the transform: [kx]
    follows the column index, [ky] the row index. *)
Definition ikx (N u v : nat) : C := iomega N v.
Definition iky (N u v : nat) : C := iomega N u.

(** The real part, at [(r, c)], of the inverse two-dimensional transform of
    the coefficients multiplied position by position by [mult]. *)
Definition inverse2_formula (mult : nat -> nat -> C) (psi : field)
    (r c : nat) : R :=
  let N := nrows psi in
  Cre (Cmul (RtoC (1 / (INR N * INR N)))
    (Csum (fun u => Csum (fun v =>
       Cmul (Cmul (mult u v) (psi_hat_formula psi u v))
            (Cmul (Cexp (2 * PI * INR u * INR r / INR N))
                  (Cexp (2 * PI * INR v * INR c / INR N)))) N) N)).

Definition psi_xy_formula (psi : field) : nat -> nat -> R :=
  let N := nrows psi in
  inverse2_formula (fun u v => Cmul (ikx N u v) (iky N u v)) psi.
Definition psi_xx_formula (psi : field) : nat -> nat -> R :=
  let N := nrows psi in
  inverse2_formula (fun u v => Cmul (ikx N u v) (ikx N u v)) psi.
Definition psi_yy_formula (psi : field) : nat -> nat -> R :=
  let N := nrows psi in
  inverse2_formula (fun u v => Cmul (iky N u v) (iky N u v)) psi.

(** [np.sum] of a 1D array. *)
Definition vsum (l : list R) : R := fold_right Rplus 0 l.

(** ** Checks of [tests/test_properties.py] and [src/plot.py] *)

(** [X**2] on a real array. *)
Definition square (X : field) : field := map (map (fun v => v * v)) X.

(** The arrays [A] and [B] of
    [test_numerical_checks_from_stream_function_true]:
<<
    vx = ddy(psi); vy = -ddx(psi)
    A = vx * ddx(psi) + vy * ddy(psi)
    B = vx**2 + vy**2 - ddx(psi)**2 - ddy(psi)**2
>> *)
Definition stream_checks (psi : field) : result (field * field) :=
  vx <- ddy psi ;;
  dpsi <- ddx psi ;;
  let vy := map (map Ropp) dpsi in
  dx1 <- ddx psi ;;
  t1 <- broadcast2 Rmult vx dx1 ;;
  dy1 <- ddy psi ;;
  t2 <- broadcast2 Rmult vy dy1 ;;
  A <- broadcast2 Rplus t1 t2 ;;
  s1 <- broadcast2 Rplus (square vx) (square vy) ;;
  dx2 <- ddx psi ;;
  s2 <- broadcast2 Rminus s1 (square dx2) ;;
  dy2 <- ddy psi ;;
  B <- broadcast2 Rminus s2 (square dy2) ;;
  Ok (A, B).

(** [np.abs(X) + 1e-15] *)
Definition floor15 : R := 1 / 10 ^ 15.
Definition abs_floor (X : field) : field :=
  map (map (fun v => Rabs v + floor15)) X.

(** The three arrays [plotNumericalChecks] hands to [imshow] with
    [LogNorm(vmin=1e-15)]:
<<
    continuity = np.abs(ddx(vx) + ddy(vy)) + 1e-15
    A = np.abs(vx * ddx(psi) + vy * ddy(psi)) + 1e-15
    B = np.abs(vx**2 + vy**2 - ddx(psi)**2 - ddy(psi)**2) + 1e-15
>> *)
Definition numerical_checks (psi vx vy : field)
  : result (field * field * field) :=
  a <- ddx vx ;;
  b <- ddy vy ;;
  div <- broadcast2 Rplus a b ;;
  let continuity := abs_floor div in
  dx1 <- ddx psi ;;
  t1 <- broadcast2 Rmult vx dx1 ;;
  dy1 <- ddy psi ;;
  t2 <- broadcast2 Rmult vy dy1 ;;
  sA <- broadcast2 Rplus t1 t2 ;;
  let A := abs_floor sA in
  s1 <- broadcast2 Rplus (square vx) (square vy) ;;
  dx2 <- ddx psi ;;
  s2 <- broadcast2 Rminus s1 (square dx2) ;;
  dy2 <- ddy psi ;;
  s3 <- broadcast2 Rminus s2 (square dy2) ;;
  let B := abs_floor s3 in
  Ok (continuity, A, B).

(** [np.min] of a flattened array; it rejects an empty one. *)
Definition amin (l : list R) : result R :=
  match l with
  | [] => Raise ValueError
  | x :: l' => Ok (fold_left Rmin l' x)
  end.

(** The half-width [r = np.max([-np.min(a), np.max(a)])] of the symmetric
    colour scale in [plotStreamFunction], [plotVelocityfields] and
    [plotVorticity]. *)
Definition color_range (a : field) : result R :=
  lo <- amin (concat a) ;;
  hi <- amax (concat a) ;;
  amax [- lo; hi].

(** [(Q < 0) * Q] and [(Q > 0) * Q] in [plotOkuboWeissField]: a boolean
    array times a real one, [True] counting as [1] and [False] as [0]. *)
Definition bool_times (b : bool) (q : R) : R := (if b then 1 else 0) * q.

Definition vorticity_part (Q : field) : result field :=
  broadcast2 bool_times
    (map (map (fun q => if Rlt_dec q 0 then true else false)) Q) Q.

Definition strain_part (Q : field) : result field :=
  broadcast2 bool_times
    (map (map (fun q => if Rlt_dec 0 q then true else false)) Q) Q.

(** A field-to-field linear map with real weights [W r c r' c']. *)
Definition lin2 (N : nat) (W : nat -> nat -> nat -> nat -> R)
    (F : nat -> nat -> R) (r c : nat) : R :=
  Rsum (fun r' => Rsum (fun c' => F r' c' * W r c r' c') N) N.

(** The weights of the three second partials of [getOkuboWeiss]. *)
Definition Wgen (a b : nat -> C) (N r c r' c' : nat) : R :=
  Cre (Cmul (Kc a N r r') (Kc b N c c')).
Definition Wxy (N : nat) := Wgen (iomega N) (iomega N) N.
Definition Wxx (N : nat) :=
  Wgen (fun _ => C1) (fun v => Cmul (iomega N v) (iomega N v)) N.
Definition Wyy (N : nat) :=
  Wgen (fun u => Cmul (iomega N u) (iomega N u)) (fun _ => C1) N.

(** The sequence moved one sample round the period, [np.roll(x, -1)]. *)
Definition rotate1 (x : list R) : list R :=
  match x with
  | [] => []
  | a :: t => t ++ [a]
  end.

(** * Properties *)

(** ** Lists and index tables *)

Section Lists.
Context {T U V : Type}.

Lemma nth_map_seq (F : nat -> T) (n k : nat) (d : T) :
  (k < n)%nat -> nth k (map F (seq 0 n)) d = F k.
Proof.
  intros Hk.
  rewrite (nth_indep _ d (F 0%nat)) by now rewrite length_map, length_seq.
  rewrite (map_nth F (seq 0 n) 0%nat k), seq_nth by assumption.
  reflexivity.
Qed.

Lemma length_map_seq (F : nat -> T) (n : nat) :
  length (map F (seq 0 n)) = n.
Proof. now rewrite length_map, length_seq. Qed.

Lemma map_seq_ext (F G : nat -> T) (n : nat) :
  (forall k, (k < n)%nat -> F k = G k) ->
  map F (seq 0 n) = map G (seq 0 n).
Proof.
  intros H. apply map_ext_in. intros k Hk.
  apply in_seq in Hk. apply H. lia.
Qed.

Lemma table_of_list (l : list T) (d : T) :
  l = map (fun i => nth i l d) (seq 0 (length l)).
Proof.
  apply nth_ext with (d := d) (d' := d).
  - now rewrite length_map_seq.
  - intros k Hk. now rewrite nth_map_seq.
Qed.

Lemma zipWith_tables (f : T -> U -> V) (F : nat -> T) (G : nat -> U) (n : nat) :
  zipWith f (map F (seq 0 n)) (map G (seq 0 n))
  = map (fun k => f (F k) (G k)) (seq 0 n).
Proof.
  generalize 0%nat. induction n as [|n IH]; intros s; simpl.
  - reflexivity.
  - now rewrite IH.
Qed.

Lemma zipWith_length (f : T -> U -> V) (xs : list T) (ys : list U) :
  length xs = length ys -> length (zipWith f xs ys) = length xs.
Proof.
  revert ys. induction xs as [|x xs IH]; intros [|y ys] H; simpl in *;
    try discriminate; auto.
Qed.
End Lists.

(** ** Sums *)

Lemma Csum_ext (f g : nat -> C) (n : nat) :
  (forall k, (k < n)%nat -> f k = g k) -> Csum f n = Csum g n.
Proof.
  induction n as [|n IH]; intros H; simpl.
  - reflexivity.
  - rewrite IH, H by (intros; try apply H; lia). reflexivity.
Qed.

Lemma Rsum_ext (f g : nat -> R) (n : nat) :
  (forall k, (k < n)%nat -> f k = g k) -> Rsum f n = Rsum g n.
Proof.
  induction n as [|n IH]; intros H; simpl.
  - reflexivity.
  - rewrite IH, H by (intros; try apply H; lia). reflexivity.
Qed.

(** ** The frequency table *)

Lemma half_split (n : nat) : (1 <= n)%nat -> ((n - 1) / 2 + 1 + n / 2 = n)%nat.
Proof.
  intros Hn.
  pose proof (Nat.div_mod_eq (n - 1) 2) as H1.
  pose proof (Nat.div_mod_eq n 2) as H2.
  pose proof (Nat.mod_upper_bound (n - 1) 2 ltac:(lia)) as B1.
  pose proof (Nat.mod_upper_bound n 2 ltac:(lia)) as B2.
  destruct (Nat.even n) eqn:E.
  - apply Nat.even_spec in E. destruct E as [h ->].
    replace (2 * h - 1)%nat with (1 + (h - 1) * 2)%nat in * by lia.
    rewrite Nat.div_add by lia. rewrite (Nat.mul_comm 2 h), Nat.div_mul by lia.
    simpl. lia.
  - assert (O : Nat.odd n = true) by (rewrite <- Nat.negb_even, E; reflexivity).
    apply Nat.odd_spec in O. destruct O as [h ->].
    replace (2 * h + 1 - 1)%nat with (h * 2)%nat by lia.
    rewrite Nat.div_mul by lia.
    replace (2 * h + 1)%nat with (1 + h * 2)%nat by lia.
    rewrite Nat.div_add by lia. simpl. lia.
Qed.

Lemma seq_offset (a q : nat) :
  seq a q = map (fun i => (a + i)%nat) (seq 0 q).
Proof.
  revert a. induction q as [|q IH]; intros a; simpl; [reflexivity|].
  f_equal; [lia|].
  rewrite (IH (S a)), <- (seq_shift q 0), map_map.
  apply map_ext. intros i. lia.
Qed.

Lemma arange_modes (n : nat) :
  (1 <= n)%nat ->
  arange 0 (Z.of_nat ((n - 1) / 2 + 1)) ++ arange (- Z.of_nat (n / 2)) 0
  = map (mode n) (seq 0 n).
Proof.
  intros Hn. pose proof (half_split n Hn) as Hs.
  set (h := ((n - 1) / 2)%nat) in *. set (q := (n / 2)%nat) in *.
  replace n with ((h + 1) + q)%nat at 2 by lia.
  rewrite seq_app, Nat.add_0_l.
  rewrite map_app. unfold arange. f_equal.
  - replace (Z.to_nat (Z.of_nat (h + 1) - 0)) with (h + 1)%nat by lia.
    apply map_ext_in. intros k Hk. apply in_seq in Hk.
    unfold mode. fold h.
    destruct (Nat.leb_spec k h); lia.
  - replace (Z.to_nat (0 - - Z.of_nat q)) with q by lia.
    replace (seq (h + 1) q) with (map (fun i => (h + 1 + i)%nat) (seq 0 q)).
    + rewrite map_map. apply map_ext_in. intros k Hk. apply in_seq in Hk.
      unfold mode. fold h.
      destruct (Nat.leb_spec (h + 1 + k) h); lia.
    + symmetry. apply seq_offset.
Qed.

Lemma fftfreq_table (n : nat) :
  (1 <= n)%nat ->
  fftfreq n 1
  = Ok (map (fun k => IZR (mode n k) * (1 / (INR n * 1))) (seq 0 n)).
Proof.
  intros Hn. unfold fftfreq.
  destruct (Nat.eqb_spec n 0) as [E|_]; [lia|].
  cbv zeta. rewrite arange_modes by assumption.
  now rewrite map_map.
Qed.

(** ** [spectralDeriv] as a table *)

Lemma INR_pos (n : nat) : (1 <= n)%nat -> 0 < INR n.
Proof. intros H. apply lt_0_INR. lia. Qed.

Lemma omega_from_table (n k : nat) :
  (1 <= n)%nat -> IZR (mode n k) * (1 / (INR n * 1)) * 2 * PI = omega n k.
Proof.
  intros Hn. unfold omega. pose proof (INR_pos n Hn). field. lra.
Qed.

Lemma fft_table (x : cvec) :
  x <> [] -> fft x = Ok (dft x).
Proof. destruct x; [congruence | reflexivity]. Qed.

Lemma ifft_table (y : cvec) :
  y <> [] -> ifft y = Ok (idft y).
Proof. destruct y; [congruence | reflexivity]. Qed.

Lemma table_nonempty {T : Type} (F : nat -> T) (n : nat) :
  (1 <= n)%nat -> map F (seq 0 n) <> [].
Proof. destruct n; [lia | simpl; discriminate]. Qed.

Lemma spectralDeriv_table (x : vec) :
  (1 <= length x)%nat ->
  spectralDeriv x = Ok (map (deriv_formula x) (seq 0 (length x))).
Proof.
  intros Hn. unfold spectralDeriv.
  rewrite fftfreq_table by assumption. cbn [bind].
  rewrite fft_table by (destruct x; simpl in *; [lia | discriminate]).
  cbn [bind]. unfold dft. rewrite length_map, !map_map, zipWith_tables.
  rewrite ifft_table by (now apply table_nonempty).
  cbn [bind]. f_equal. unfold idft. rewrite length_map_seq, map_map.
  apply map_seq_ext. intros n Hlt. unfold deriv_formula.
  do 2 f_equal. apply Csum_ext. intros k Hk.
  rewrite nth_map_seq by assumption.
  rewrite omega_from_table by assumption.
  do 2 f_equal. apply Csum_ext. intros m Hm.
  f_equal.
  rewrite (nth_indep _ C0 (RtoC 0)) by (now rewrite length_map).
  now rewrite (map_nth RtoC).
Qed.

Lemma mode_lower (n k : nat) :
  (k <= (n - 1) / 2)%nat -> mode n k = Z.of_nat k.
Proof. intros H. unfold mode. destruct (Nat.leb_spec k ((n - 1) / 2)); lia. Qed.

Lemma mode_upper (n k : nat) :
  ((n - 1) / 2 < k)%nat -> mode n k = (Z.of_nat k - Z.of_nat n)%Z.
Proof. intros H. unfold mode. destruct (Nat.leb_spec k ((n - 1) / 2)); lia. Qed.

(** C3.  For a real input of length [N >= 1], [spectralDeriv] returns a real
    sequence of length [N] whose sample [n] is the real part of the inverse
    transform of the forward transform with coefficient [k] multiplied by
    [i * (2 pi mode(k) / N)], where [mode k = k >= 0] on the lower half of the
    indices and [mode k = k - N < 0] on the upper half. *)
Theorem spectralDeriv_spec (x : vec) :
  (1 <= length x)%nat ->
  exists y,
    spectralDeriv x = Ok y /\
    length y = length x /\
    (forall n, (n < length x)%nat -> nth n y 0 = deriv_formula x n) /\
    (forall k, (k < length x)%nat ->
       ((k <= (length x - 1) / 2)%nat ->
          mode (length x) k = Z.of_nat k /\ (0 <= mode (length x) k)%Z) /\
       (((length x - 1) / 2 < k)%nat ->
          mode (length x) k = (Z.of_nat k - Z.of_nat (length x))%Z /\
          (mode (length x) k < 0)%Z)).
Proof.
  intros Hn. eexists. split; [apply spectralDeriv_table; assumption|].
  split; [apply length_map_seq|]. split.
  - intros n Hlt. now apply nth_map_seq.
  - intros k Hk. split; intros H.
    + rewrite mode_lower by assumption. lia.
    + rewrite mode_upper by assumption. lia.
Qed.

Lemma spectralDeriv_spec_witness :
  exists y,
    spectralDeriv [1; 2; 3] = Ok y /\
    length y = 3%nat /\
    (forall n, (n < 3)%nat -> nth n y 0 = deriv_formula [1; 2; 3] n) /\
    (forall k, (k < 3)%nat ->
       ((k <= 1)%nat -> mode 3 k = Z.of_nat k /\ (0 <= mode 3 k)%Z) /\
       ((1 < k)%nat -> mode 3 k = (Z.of_nat k - 3)%Z /\ (mode 3 k < 0)%Z)).
Proof. apply (spectralDeriv_spec [1; 2; 3]). simpl. lia. Defined.

(** C10, as the code has it.  The degenerate lengths are not handled by
    [spectralDeriv] itself: the empty sequence makes [np.fft.fftfreq] divide
    by zero, and a sequence of length one goes through the library calls and
    comes back as the zero sequence of length one. *)
Theorem spectralDeriv_degenerate :
  spectralDeriv [] = Raise ZeroDivisionError /\
  forall a : R, spectralDeriv [a] = Ok [0].
Proof.
  split; [reflexivity|].
  intros a. rewrite spectralDeriv_table by (simpl; lia).
  simpl. do 2 f_equal.
  unfold deriv_formula, omega, mode, Cmul, Cadd, Cexp, RtoC, Ci, C0, Cre.
  simpl. field.
Qed.

(** C10 as stated fails on the empty sequence: no empty sequence comes back. *)
Lemma spectralDeriv_empty_not_empty : spectralDeriv [] <> Ok [].
Proof. discriminate. Qed.

(** ** Shapes *)

Section Shapes.
Context {T : Type}.
Implicit Types (A : list (list T)) (n m : nat).

Lemma rect_ncols n m A : rect n m A -> (1 <= n)%nat -> ncols A = m.
Proof.
  intros [Hl Hr] Hn. destruct A as [|r A]; simpl in *; [lia|].
  now inversion Hr.
Qed.

Lemma rect_nrows n m A : rect n m A -> nrows A = n.
Proof. now intros [Hl _]. Qed.

Lemma rect_row n m A i d :
  rect n m A -> (i < n)%nat -> length (nth i A d) = m.
Proof.
  intros [Hl Hr] Hi. rewrite Forall_forall in Hr.
  apply Hr, nth_In. lia.
Qed.

Lemma rect_table n m (F : nat -> nat -> T) :
  rect n m (map (fun r => map (F r) (seq 0 m)) (seq 0 n)).
Proof.
  split; [apply length_map_seq|].
  apply Forall_forall. intros row Hin. apply in_map_iff in Hin.
  destruct Hin as (r & <- & _). apply length_map_seq.
Qed.

Lemma rect_map {U : Type} n m (g : list U -> list T) (B : list (list U)) :
  rect n m B -> (forall row, length (g row) = length row) ->
  rect n m (map g B).
Proof.
  intros [Hl Hr] Hg. split; [now rewrite length_map|].
  apply Forall_forall. intros row Hin. apply in_map_iff in Hin.
  destruct Hin as (r & <- & Hin). rewrite Hg.
  rewrite Forall_forall in Hr. now apply Hr.
Qed.
End Shapes.

Lemma field_table (n m : nat) (A : field) :
  rect n m A -> A = map (fun r => map (get A r) (seq 0 m)) (seq 0 n).
Proof.
  intros HA. destruct HA as [Hl Hr].
  rewrite (table_of_list A []) at 1. rewrite Hl.
  apply map_seq_ext. intros r Hlt.
  rewrite (table_of_list (nth r A []) 0) at 1.
  rewrite (rect_row n m A r [] (conj Hl Hr) Hlt).
  reflexivity.
Qed.

Lemma get_table (n m : nat) (F : nat -> nat -> R) (r c : nat) :
  (r < n)%nat -> (c < m)%nat ->
  get (map (fun r => map (F r) (seq 0 m)) (seq 0 n)) r c = F r c.
Proof.
  intros Hr Hc. unfold get.
  rewrite (nth_map_seq (fun r => map (F r) (seq 0 m))) by assumption.
  now apply nth_map_seq.
Qed.

Lemma column_length (j : nat) (A : field) : length (column j A) = length A.
Proof. apply length_map. Qed.

Lemma nth_column (j i : nat) (A : field) :
  (i < length A)%nat -> nth i (column j A) 0 = get A i j.
Proof.
  intros Hi. unfold column, get.
  rewrite (nth_indep _ 0 (nth j [] 0)) by (now rewrite length_map).
  now rewrite (map_nth (fun row => nth j row 0)).
Qed.

Lemma rect_transpose (n m : nat) (A : field) :
  rect n m A -> (1 <= n)%nat -> rect m n (transpose A).
Proof.
  intros HA Hn. unfold transpose. rewrite (rect_ncols n m A HA Hn).
  split; [apply length_map_seq|].
  apply Forall_forall. intros row Hin. apply in_map_iff in Hin.
  destruct Hin as (j & <- & _). rewrite column_length. apply HA.
Qed.

Lemma get_transpose (n m : nat) (A : field) (i j : nat) :
  rect n m A -> (1 <= n)%nat -> (i < n)%nat -> (j < m)%nat ->
  get (transpose A) j i = get A i j.
Proof.
  intros HA Hn Hi Hj. unfold transpose.
  rewrite (rect_ncols n m A HA Hn). unfold get at 1.
  rewrite (nth_map_seq (fun j => column j A)) by assumption.
  apply nth_column. destruct HA; lia.
Qed.

Lemma nth_transpose (n m : nat) (A : field) (j : nat) :
  rect n m A -> (1 <= n)%nat -> (j < m)%nat ->
  nth j (transpose A) [] = column j A.
Proof.
  intros HA Hn Hj. unfold transpose.
  rewrite (rect_ncols n m A HA Hn).
  now apply (nth_map_seq (fun j => column j A)).
Qed.

Lemma column_transpose (n m : nat) (A : field) (i : nat) :
  rect n m A -> (1 <= n)%nat -> (i < n)%nat ->
  column i (transpose A) = nth i A [].
Proof.
  intros HA Hn Hi.
  pose proof (rect_row n m A i [] HA Hi) as Hlen.
  apply nth_ext with (d := 0) (d' := 0).
  - rewrite column_length. destruct (rect_transpose n m A HA Hn). lia.
  - intros j Hj. rewrite column_length in Hj.
    destruct (rect_transpose n m A HA Hn) as [Hl _].
    rewrite nth_column by assumption.
    rewrite (get_transpose n m) by (assumption || lia). reflexivity.
Qed.

Lemma transpose_involutive (n m : nat) (A : field) :
  rect n m A -> (1 <= n)%nat -> (1 <= m)%nat ->
  transpose (transpose A) = A.
Proof.
  intros HA Hn Hm.
  pose proof (rect_transpose n m A HA Hn) as HT.
  unfold transpose at 1. rewrite (rect_ncols m n _ HT Hm).
  etransitivity; [|symmetry; apply (table_of_list A [])].
  rewrite (proj1 HA).
  apply map_seq_ext. intros i Hi.
  now apply (column_transpose n m).
Qed.

(** ** [ddx] and [ddy] as row-wise maps *)

Lemma deriv_table_length (x : vec) : length (deriv_table x) = length x.
Proof. apply length_map_seq. Qed.

Lemma spectralDeriv_ok (x : vec) :
  (1 <= length x)%nat -> spectralDeriv x = Ok (deriv_table x).
Proof. apply spectralDeriv_table. Qed.

Lemma deriv_loop_table (m : nat) (slices : list vec) :
  (1 <= m)%nat ->
  Forall (fun row => length row = m) slices ->
  forall deriv : field,
    deriv <> [] -> ncols deriv = m ->
    deriv_loop deriv slices = Ok (deriv ++ map deriv_table slices).
Proof.
  intros Hm. induction 1 as [|s rest Hs Hrest IH]; intros deriv Hne Hc; simpl.
  - now rewrite app_nil_r.
  - rewrite spectralDeriv_ok by lia. cbn [bind].
    unfold concatenate, reshape_row. rewrite Hc.
    change (ncols [deriv_table s]) with (length (deriv_table s)).
    rewrite deriv_table_length, Hs, Nat.eqb_refl. cbn [bind].
    rewrite IH.
    + now rewrite <- app_assoc.
    + destruct deriv; [congruence | discriminate].
    + destruct deriv; [congruence | exact Hc].
Qed.

Lemma ddx_table (n m : nat) (A : field) :
  rect n m A -> (1 <= n)%nat -> (1 <= m)%nat ->
  ddx A = Ok (map deriv_table A).
Proof.
  intros [Hl Hr] Hn Hm. destruct A as [|row0 rest]; simpl in Hl; [lia|].
  inversion Hr as [|? ? H0 Hrest]; subst. unfold ddx.
  rewrite spectralDeriv_ok by lia. cbn [bind].
  rewrite (deriv_loop_table (length row0)); try assumption.
  - reflexivity.
  - discriminate.
  - apply deriv_table_length.
Qed.

Lemma ddy_table (n m : nat) (A : field) :
  rect n m A -> (1 <= n)%nat -> (1 <= m)%nat ->
  ddy A = Ok (transpose (map deriv_table (transpose A))).
Proof.
  intros HA Hn Hm.
  pose proof (rect_transpose n m A HA Hn) as HT.
  pose proof (ddx_table m n (transpose A) HT Hm Hn) as Hx.
  unfold ddy. unfold ddx in Hx.
  destruct (transpose A) as [|row0 rest]; [discriminate Hx|].
  destruct (spectralDeriv row0) as [d0|e]; cbn [bind] in *; [|discriminate Hx].
  rewrite Hx. reflexivity.
Qed.

Lemma rect_deriv (n m : nat) (A : field) :
  rect n m A -> rect n m (map deriv_table A).
Proof. intros HA. apply rect_map; [assumption | apply deriv_table_length]. Qed.

(** C7.  On a field of shape [(N, M)] with [N, M >= 1], [ddx] returns a field
    of the same shape whose row [i] is [spectralDeriv] of row [i] of the
    input, and [ddy] returns a field of the same shape whose column [j] is
    [spectralDeriv] of column [j] of the input. *)
Theorem ddx_ddy_slices (N M : nat) (f : field) :
  rect N M f -> (1 <= N)%nat -> (1 <= M)%nat ->
  (exists dx, ddx f = Ok dx /\ rect N M dx /\
     forall i, (i < N)%nat -> spectralDeriv (nth i f []) = Ok (nth i dx [])) /\
  (exists dy, ddy f = Ok dy /\ rect N M dy /\
     forall j, (j < M)%nat -> spectralDeriv (column j f) = Ok (column j dy)).
Proof.
  intros Hf HN HM. split.
  - exists (map deriv_table f). split; [now apply (ddx_table N M)|].
    split; [now apply rect_deriv|].
    intros i Hi.
    rewrite spectralDeriv_ok by (rewrite (rect_row N M f i [] Hf Hi); lia).
    f_equal. rewrite (nth_indep (map deriv_table f) [] (deriv_table [])) by
      (rewrite length_map, (proj1 Hf); exact Hi).
    now rewrite (map_nth deriv_table).
  - pose proof (rect_transpose N M f Hf HN) as HT.
    pose proof (rect_deriv M N _ HT) as HD.
    exists (transpose (map deriv_table (transpose f))).
    split; [now apply (ddy_table N M)|].
    split; [now apply rect_transpose|].
    intros j Hj.
    rewrite (column_transpose M N _ j HD HM Hj).
    rewrite (nth_indep (map deriv_table (transpose f)) [] (deriv_table [])) by
      (rewrite length_map, (proj1 HT); exact Hj).
    rewrite (map_nth deriv_table).
    rewrite (nth_transpose N M f j Hf HN Hj).
    apply spectralDeriv_ok. rewrite column_length, (proj1 Hf). exact HN.
Qed.

Lemma ddx_ddy_slices_witness :
  (exists dx, ddx [[1; 2]; [3; 4]] = Ok dx /\ rect 2 2 dx /\
     forall i, (i < 2)%nat ->
       spectralDeriv (nth i [[1; 2]; [3; 4]] []) = Ok (nth i dx [])) /\
  (exists dy, ddy [[1; 2]; [3; 4]] = Ok dy /\ rect 2 2 dy /\
     forall j, (j < 2)%nat ->
       spectralDeriv (column j [[1; 2]; [3; 4]]) = Ok (column j dy)).
Proof.
  apply (ddx_ddy_slices 2 2 [[1; 2]; [3; 4]]); [|lia|lia].
  split; [reflexivity|]. repeat constructor.
Defined.

(** C8.  On a field with at least one row and one column, [ddy f] is the
    transpose of [ddx] of the transpose of [f]. *)
Theorem ddy_transpose_ddx (N M : nat) (f : field) :
  rect N M f -> (1 <= N)%nat -> (1 <= M)%nat ->
  exists d, ddx (transpose f) = Ok d /\ ddy f = Ok (transpose d).
Proof.
  intros Hf HN HM.
  pose proof (rect_transpose N M f Hf HN) as HT.
  exists (map deriv_table (transpose f)). split.
  - now apply (ddx_table M N).
  - now apply (ddy_table N M).
Qed.

Lemma ddy_transpose_ddx_witness :
  exists d, ddx (transpose [[1; 2; 3]; [4; 5; 6]]) = Ok d /\
            ddy [[1; 2; 3]; [4; 5; 6]] = Ok (transpose d).
Proof.
  apply (ddy_transpose_ddx 2 3 [[1; 2; 3]; [4; 5; 6]]); [|lia|lia].
  split; [reflexivity|]. repeat constructor.
Defined.

(** ** Broadcasting *)

Lemma stretch_id {W : Type} (n : nat) (l : list W) :
  length l = n -> stretch n l = l.
Proof. destruct l as [|x [|y l]]; simpl; intros <-; reflexivity. Qed.

Lemma stretch_length {W : Type} (b m : nat) (l : list W) :
  length l = b -> b = m \/ b = 1%nat -> length (stretch m l) = m.
Proof.
  intros Hl [->| ->].
  - now rewrite stretch_id.
  - destruct l as [|x [|y l]]; simpl in *; try discriminate.
    apply repeat_length.
Qed.

Section Broadcast.
Context {T U V : Type}.

Lemma bdim_same (n : nat) : bdim n n = Some n.
Proof. unfold bdim. now rewrite Nat.eqb_refl. Qed.

Lemma bdim_cases (a b n : nat) :
  bdim a b = Some n -> (a = n \/ a = 1%nat) /\ (b = n \/ b = 1%nat).
Proof.
  unfold bdim.
  destruct (Nat.eqb_spec a b); [intros [= <-]; lia|].
  destruct (Nat.eqb_spec a 1); [intros [= <-]; lia|].
  destruct (Nat.eqb_spec b 1); [intros [= <-]; lia|discriminate].
Qed.

Lemma bdim_none (a b : nat) :
  bdim a b = None <-> a <> b /\ a <> 1%nat /\ b <> 1%nat.
Proof.
  unfold bdim.
  destruct (Nat.eqb_spec a b); [split; [discriminate | lia]|].
  destruct (Nat.eqb_spec a 1); [split; [discriminate | lia]|].
  destruct (Nat.eqb_spec b 1); [split; [discriminate | lia]|].
  split; auto.
Qed.

Lemma rect_stretch (a b n m : nat) (X : list (list T)) :
  rect a b X -> a = n \/ a = 1%nat -> b = m \/ b = 1%nat ->
  rect n m (stretch n (map (stretch m) X)).
Proof.
  intros [Hl Hr] Ha Hb.
  assert (Hrows : Forall (fun row => length row = m) (map (stretch m) X)).
  { apply Forall_forall. intros row Hin. apply in_map_iff in Hin.
    destruct Hin as (r & <- & Hin). rewrite Forall_forall in Hr.
    apply (stretch_length b); auto. }
  split.
  - apply (stretch_length a); [now rewrite length_map | assumption].
  - destruct (map (stretch m) X) as [|x [|y l]] eqn:E; simpl; auto.
    inversion Hrows; subst. apply Forall_forall. intros row Hin.
    apply repeat_spec in Hin. now subst.
Qed.

Lemma rect_zipWith (f : T -> U -> V) (n m : nat)
    (X : list (list T)) (Y : list (list U)) :
  rect n m X -> rect n m Y -> rect n m (zipWith (zipWith f) X Y).
Proof.
  intros [HlX HrX] [HlY HrY]. split.
  - rewrite zipWith_length; congruence.
  - clear HlX HlY. revert Y HrY.
    induction HrX as [|x X Hx HX IH]; intros Y HrY; simpl; [constructor|].
    destruct HrY as [|y Y Hy HY]; constructor.
    + rewrite zipWith_length; congruence.
    + now apply IH.
Qed.

Lemma broadcast2_ok (f : T -> U -> V) (n m : nat)
    (X : list (list T)) (Y : list (list U)) :
  bdim (nrows X) (nrows Y) = Some n ->
  bdim (ncols X) (ncols Y) = Some m ->
  broadcast2 f X Y
  = Ok (zipWith (zipWith f) (stretch n (map (stretch m) X))
                            (stretch n (map (stretch m) Y))).
Proof. intros Hr Hc. unfold broadcast2. now rewrite Hr, Hc. Qed.

Lemma broadcast2_raise (f : T -> U -> V)
    (X : list (list T)) (Y : list (list U)) :
  bdim (nrows X) (nrows Y) = None \/ bdim (ncols X) (ncols Y) = None ->
  broadcast2 f X Y = Raise ValueError.
Proof.
  intros [H|H]; unfold broadcast2; rewrite H; [reflexivity|].
  now destruct (bdim (nrows X) (nrows Y)).
Qed.

Lemma broadcast2_same_shape (f : T -> U -> V) (n m : nat)
    (X : list (list T)) (Y : list (list U)) :
  rect n m X -> rect n m Y ->
  broadcast2 f X Y = Ok (zipWith (zipWith f) X Y).
Proof.
  intros HX HY.
  assert (Hc : ncols X = ncols Y).
  { destruct n as [|n].
    - destruct HX as [HX _], HY as [HY _].
      apply length_zero_iff_nil in HX, HY. now subst.
    - rewrite (rect_ncols _ m X HX), (rect_ncols _ m Y HY); lia. }
  rewrite (broadcast2_ok f n (ncols X)).
  - assert (S : forall (W : Type) (Z : list (list W)),
               rect n m Z -> ncols Z = ncols X ->
               stretch n (map (stretch (ncols X)) Z) = Z).
    { intros W Z HZ HcZ.
      assert (E : map (stretch (ncols X)) Z = Z).
      { rewrite <- (map_id Z) at 2. apply map_ext_in. intros row Hin.
        apply stretch_id. destruct Z as [|z Z]; [destruct Hin|].
        destruct HZ as [_ HZ]. rewrite Forall_forall in HZ.
        rewrite (HZ row Hin). rewrite <- HcZ. unfold ncols. simpl.
        symmetry. apply HZ. now left. }
      rewrite E. apply stretch_id, HZ. }
    rewrite (S T X HX eq_refl), (S U Y HY (eq_sym Hc)). reflexivity.
  - rewrite (rect_nrows n m X HX), (rect_nrows n m Y HY). apply bdim_same.
  - rewrite <- Hc. apply bdim_same.
Qed.

Lemma zipWith_tabulate (f : T -> U -> V) (n m : nat)
    (F : nat -> nat -> T) (G : nat -> nat -> U) :
  zipWith (zipWith f) (tabulate n m F) (tabulate n m G)
  = tabulate n m (fun r c => f (F r c) (G r c)).
Proof.
  unfold tabulate. rewrite zipWith_tables.
  apply map_ext. intros r. apply zipWith_tables.
Qed.

Lemma broadcast2_tabulate (f : T -> U -> V) (n m : nat)
    (F : nat -> nat -> T) (G : nat -> nat -> U) :
  broadcast2 f (tabulate n m F) (tabulate n m G)
  = Ok (tabulate n m (fun r c => f (F r c) (G r c))).
Proof.
  rewrite (broadcast2_same_shape f n m) by apply rect_table.
  now rewrite zipWith_tabulate.
Qed.
End Broadcast.

(** ** [getVorticity] *)

Lemma getVorticity_unfold (N M N' M' : nat) (vx vy : field) :
  rect N M vx -> rect N' M' vy ->
  (1 <= N)%nat -> (1 <= M)%nat -> (1 <= N')%nat -> (1 <= M')%nat ->
  let dvy := map deriv_table vy in
  let dvx := transpose (map deriv_table (transpose vx)) in
  ddx vy = Ok dvy /\ ddy vx = Ok dvx /\
  rect N' M' dvy /\ rect N M dvx /\
  getVorticity vx vy = broadcast2 Rminus dvy dvx.
Proof.
  intros Hvx Hvy HN HM HN' HM' dvy dvx.
  assert (Ex : ddx vy = Ok dvy) by now apply (ddx_table N' M').
  assert (Ey : ddy vx = Ok dvx) by now apply (ddy_table N M).
  split; [exact Ex|]. split; [exact Ey|]. split; [|split].
  - apply rect_deriv, Hvy.
  - apply (rect_transpose M N); [|exact HM].
    apply rect_deriv. now apply rect_transpose.
  - unfold getVorticity. now rewrite Ex, Ey.
Qed.

(** C9.  For [vx], [vy] of one shape [(N, M)], [N, M >= 1], [getVorticity]
    returns the field [ddx(vy) - ddy(vx)], entry by entry and of the same
    shape, nothing else applied. *)
Theorem getVorticity_spec (N M : nat) (vx vy : field) :
  rect N M vx -> rect N M vy -> (1 <= N)%nat -> (1 <= M)%nat ->
  exists dvy dvx w,
    ddx vy = Ok dvy /\ ddy vx = Ok dvx /\
    getVorticity vx vy = Ok w /\ rect N M w /\
    forall r c, (r < N)%nat -> (c < M)%nat ->
      get w r c = get dvy r c - get dvx r c.
Proof.
  intros Hvx Hvy HN HM.
  destruct (getVorticity_unfold N M N M vx vy Hvx Hvy HN HM HN HM)
    as (Ex & Ey & Rx & Ry & E).
  set (dvy := map deriv_table vy) in *.
  set (dvx := transpose (map deriv_table (transpose vx))) in *.
  exists dvy, dvx, (tabulate N M (fun r c => get dvy r c - get dvx r c)).
  split; [exact Ex|]. split; [exact Ey|]. split; [|split].
  - rewrite E. rewrite (field_table N M dvy Rx) at 1.
    rewrite (field_table N M dvx Ry) at 1.
    apply (broadcast2_tabulate Rminus).
  - apply rect_table.
  - intros r c Hr Hc. now apply get_table.
Qed.

Lemma getVorticity_spec_witness :
  exists dvy dvx w,
    ddx [[5; 6]; [7; 8]] = Ok dvy /\ ddy [[1; 2]; [3; 4]] = Ok dvx /\
    getVorticity [[1; 2]; [3; 4]] [[5; 6]; [7; 8]] = Ok w /\ rect 2 2 w /\
    forall r c, (r < 2)%nat -> (c < 2)%nat ->
      get w r c = get dvy r c - get dvx r c.
Proof.
  apply (getVorticity_spec 2 2 [[1; 2]; [3; 4]] [[5; 6]; [7; 8]]);
    try lia; (split; [reflexivity | repeat constructor]).
Defined.

(** C5, as the code has it.  [getVorticity] has no shape check of its own.
    Whatever the shapes [(N, M)] of [vx] and [(N', M')] of [vy] (all positive),
    both derivatives are computed first; the subtraction then follows the
    broadcasting rule: it raises [ValueError] when the lengths of some axis
    differ and neither is one, and otherwise returns a field of the
    broadcast shape. *)
Theorem getVorticity_shapes (N M N' M' : nat) (vx vy : field) :
  rect N M vx -> rect N' M' vy ->
  (1 <= N)%nat -> (1 <= M)%nat -> (1 <= N')%nat -> (1 <= M')%nat ->
  exists dvy dvx,
    ddx vy = Ok dvy /\ ddy vx = Ok dvx /\
    getVorticity vx vy = broadcast2 Rminus dvy dvx /\
    (bdim N' N = None \/ bdim M' M = None ->
       getVorticity vx vy = Raise ValueError) /\
    (forall n m, bdim N' N = Some n -> bdim M' M = Some m ->
       exists w, getVorticity vx vy = Ok w /\ rect n m w).
Proof.
  intros Hvx Hvy HN HM HN' HM'.
  destruct (getVorticity_unfold N M N' M' vx vy Hvx Hvy HN HM HN' HM')
    as (Ex & Ey & Rx & Ry & E).
  set (dvy := map deriv_table vy) in *.
  set (dvx := transpose (map deriv_table (transpose vx))) in *.
  assert (Hr : nrows dvy = N' /\ nrows dvx = N)
    by (split; [apply Rx | apply Ry]).
  assert (Hc : ncols dvy = M' /\ ncols dvx = M)
    by (split; [now apply (rect_ncols N') | now apply (rect_ncols N)]).
  destruct Hr as [Hr1 Hr2], Hc as [Hc1 Hc2].
  exists dvy, dvx. repeat split; try assumption.
  - intros Hnone. rewrite E. apply broadcast2_raise.
    now rewrite Hr1, Hr2, Hc1, Hc2.
  - intros n m Hn Hm. eexists. split.
    + rewrite E. apply (broadcast2_ok Rminus n m).
      * now rewrite Hr1, Hr2.
      * now rewrite Hc1, Hc2.
    + apply bdim_cases in Hn, Hm.
      apply rect_zipWith.
      * apply (rect_stretch N' M'); tauto.
      * apply (rect_stretch N M); tauto.
Qed.

Lemma getVorticity_shapes_witness :
  exists dvy dvx,
    ddx [[5; 6]] = Ok dvy /\ ddy [[1; 2]; [3; 4]] = Ok dvx /\
    getVorticity [[1; 2]; [3; 4]] [[5; 6]] = broadcast2 Rminus dvy dvx /\
    (bdim 1 2 = None \/ bdim 2 2 = None ->
       getVorticity [[1; 2]; [3; 4]] [[5; 6]] = Raise ValueError) /\
    (forall n m, bdim 1 2 = Some n -> bdim 2 2 = Some m ->
       exists w, getVorticity [[1; 2]; [3; 4]] [[5; 6]] = Ok w /\ rect n m w).
Proof.
  apply (getVorticity_shapes 2 2 1 2 [[1; 2]; [3; 4]] [[5; 6]]);
    try lia; (split; [reflexivity | repeat constructor]).
Defined.

(** C5 as stated fails: with [vx] of shape [(2, 2)] and [vy] of shape
    [(1, 2)] no error is raised; the single row of [ddx(vy)] is silently
    repeated and a field of shape [(2, 2)] comes back. *)
Lemma getVorticity_silent_broadcast :
  exists w, getVorticity [[1; 2]; [3; 4]] [[5; 6]] = Ok w /\ rect 2 2 w.
Proof.
  destruct (getVorticity_unfold 2 2 1 2 [[1; 2]; [3; 4]] [[5; 6]])
    as (_ & _ & Rx & Ry & E);
    try lia; try (split; [reflexivity | repeat constructor]).
  eexists. split.
  - rewrite E. apply (broadcast2_ok Rminus 2 2).
    + now rewrite (rect_nrows _ _ _ Rx), (rect_nrows _ _ _ Ry).
    + rewrite (rect_ncols 1 2 _ Rx), (rect_ncols 2 2 _ Ry) by lia.
      reflexivity.
  - apply rect_zipWith.
    + apply (rect_stretch 1 2); [exact Rx | lia | lia].
    + apply (rect_stretch 2 2); [exact Ry | lia | lia].
Qed.


(** ** Maximum of a list *)

Lemma fold_Rmax_ge (l : list R) (a : R) : a <= fold_left Rmax l a.
Proof.
  revert a. induction l as [|x l IH]; intros a; simpl; [lra|].
  eapply Rle_trans; [apply (Rmax_l a x) | apply IH].
Qed.

Lemma fold_Rmax_bound (l : list R) (a x : R) :
  In x l -> x <= fold_left Rmax l a.
Proof.
  revert a. induction l as [|y l IH]; intros a; simpl; [tauto|].
  intros [->|Hin]; [|now apply IH].
  eapply Rle_trans; [apply (Rmax_r a x) | apply fold_Rmax_ge].
Qed.

Lemma fold_Rmax_In (l : list R) (a : R) :
  fold_left Rmax l a = a \/ In (fold_left Rmax l a) l.
Proof.
  revert a. induction l as [|y l IH]; intros a; simpl; [now left|].
  destruct (IH (Rmax a y)) as [E|Hin]; [|now right; right].
  rewrite E. unfold Rmax. destruct (Rle_dec a y); [right; now left | now left].
Qed.

Lemma amax_spec (l : list R) :
  l <> [] ->
  exists mx, amax l = Ok mx /\ In mx l /\ forall x, In x l -> x <= mx.
Proof.
  destruct l as [|a l]; [congruence|]. intros _.
  exists (fold_left Rmax l a). split; [reflexivity|]. split.
  - destruct (fold_Rmax_In l a) as [E|Hin]; [rewrite E; now left | now right].
  - intros x [<-|Hin]; [apply fold_Rmax_ge | now apply fold_Rmax_bound].
Qed.

Lemma amax_unique (l : list R) (m : R) :
  In m l -> (forall x, In x l -> x <= m) -> amax l = Ok m.
Proof.
  intros Hin Hub.
  destruct (amax_spec l) as (mx & E & Hin' & Hub').
  - intros ->. destruct Hin.
  - rewrite E. f_equal. apply Rle_antisym; auto.
Qed.

Lemma In_get_concat (n m : nat) (A : list (list R)) (r c : nat) :
  rect n m A -> (r < n)%nat -> (c < m)%nat -> In (get A r c) (concat A).
Proof.
  intros HA Hr Hc. apply in_concat. exists (nth r A []). split.
  - apply nth_In. now rewrite (proj1 HA).
  - apply nth_In. now rewrite (rect_row n m A r [] HA Hr).
Qed.

Lemma concat_map_map {T U : Type} (g : T -> U) (A : list (list T)) :
  concat (map (map g) A) = map g (concat A).
Proof. now rewrite concat_map. Qed.

Lemma get_map_map (n m : nat) (g : R -> R) (A : list (list R)) (r c : nat) :
  rect n m A -> (r < n)%nat -> (c < m)%nat ->
  get (map (map g) A) r c = g (get A r c).
Proof.
  intros HA Hr Hc. unfold get.
  rewrite (nth_indep (map (map g) A) [] (map g []))
    by now rewrite length_map, (proj1 HA).
  rewrite (map_nth (map g)).
  rewrite (nth_indep (map g (nth r A [])) 0 (g 0))
    by now rewrite length_map, (rect_row n m A r [] HA Hr).
  now rewrite (map_nth g).
Qed.

Lemma rect_map_map {T U : Type} (n m : nat) (g : T -> U) (A : list (list T)) :
  rect n m A -> rect n m (map (map g) A).
Proof. intros HA. apply rect_map; [assumption|]. intros. apply length_map. Qed.

(** ** [getRandomStreamFunction] *)

Section GeneratorProperties.
Variable rand : nat -> nat -> list (list R).
Variable gaussian_filter : list (list R) -> R -> list (list R).
Variables (N : nat) (sigma : R).

Let pattern : list (list R) :=
  gaussian_filter (map (map (fun u => 2 * u - 1)) (rand N N)) sigma.

(** The filter returns an array of the shape of its input, here [(N, N)]. *)
Hypothesis pattern_shape : rect N N pattern.
Hypothesis N_pos : (1 <= N)%nat.

Lemma pattern_nonempty : map Rabs (concat pattern) <> [].
Proof.
  intros E. apply map_eq_nil in E.
  pose proof (In_get_concat N N pattern 0 0 pattern_shape N_pos N_pos) as H.
  rewrite E in H. destruct H.
Qed.

Lemma generator_cases :
  exists max_val,
    amax (map Rabs (concat pattern)) = Ok max_val /\ 0 <= max_val /\
    (forall v, In v (concat pattern) -> Rabs v <= max_val) /\
    (exists v, In v (concat pattern) /\ Rabs v = max_val) /\
    getRandomStreamFunction rand gaussian_filter N sigma
    = if Req_dec_T max_val 0 then Raise ValueError
      else Ok (map (map (fun v => v / max_val)) pattern).
Proof.
  destruct (amax_spec _ pattern_nonempty) as (mx & E & Hin & Hub).
  exists mx. split; [exact E|]. split; [|split; [|split]].
  - apply in_map_iff in Hin. destruct Hin as (v & <- & _). apply Rabs_pos.
  - intros v Hv. now apply Hub, in_map.
  - apply in_map_iff in Hin. destruct Hin as (v & Ev & Hv). now exists v.
  - unfold getRandomStreamFunction. fold pattern. rewrite E. reflexivity.
Qed.
End GeneratorProperties.

Lemma Rabs_bound (x a : R) : Rabs x <= a -> - a <= x <= a.
Proof. unfold Rabs. destruct (Rcase_abs x); lra. Qed.

Lemma Rabs_div_pos (v m : R) : 0 < m -> Rabs (v / m) = Rabs v / m.
Proof.
  intros Hm. unfold Rdiv. rewrite Rabs_mult, (Rabs_right (/ m)); [reflexivity|].
  apply Rle_ge, Rlt_le, Rinv_0_lt_compat, Hm.
Qed.

(** C6.  With the smoothed noise [pattern] of shape [(N, N)], [N >= 1] and
    [sigma >= 0]: [getRandomStreamFunction] raises [ValueError] exactly when
    the maximum absolute value of [pattern] is [0]; otherwise it returns the
    [(N, N)] field [pattern / max_val], the divisor not being zero, whose
    values lie in [[-1, 1]] and whose maximum absolute value is [1]. *)
Theorem getRandomStreamFunction_spec
    (rand : nat -> nat -> list (list R))
    (gaussian_filter : list (list R) -> R -> list (list R))
    (N : nat) (sigma : R) :
  let pattern :=
    gaussian_filter (map (map (fun u => 2 * u - 1)) (rand N N)) sigma in
  (1 <= N)%nat -> 0 <= sigma -> rect N N pattern ->
  exists max_val,
    amax (map Rabs (concat pattern)) = Ok max_val /\
    (getRandomStreamFunction rand gaussian_filter N sigma = Raise ValueError
     <-> max_val = 0) /\
    (max_val <> 0 ->
     exists psi,
       getRandomStreamFunction rand gaussian_filter N sigma = Ok psi /\
       psi = map (map (fun v => v / max_val)) pattern /\
       rect N N psi /\
       (forall r c, (r < N)%nat -> (c < N)%nat -> -1 <= get psi r c <= 1) /\
       amax (map Rabs (concat psi)) = Ok 1).
Proof.
  intros pattern HN Hs Hshape.
  destruct (generator_cases rand gaussian_filter N sigma Hshape HN)
    as (mx & E & Hpos & Hub & (v0 & Hv0 & Ev0) & Hrun).
  fold pattern in E, Hub, Hv0, Hrun.
  exists mx. split; [exact E|]. split.
  - rewrite Hrun. destruct (Req_dec_T mx 0); split; intros H;
      try reflexivity; try assumption; try discriminate; contradiction.
  - intros Hne. assert (Hmx : 0 < mx) by lra.
    exists (map (map (fun v => v / mx)) pattern).
    split; [rewrite Hrun; destruct (Req_dec_T mx 0); [contradiction | reflexivity]|].
    split; [reflexivity|]. split; [now apply rect_map_map|]. split.
    + intros r c Hr Hc.
      rewrite (get_map_map N N) by assumption.
      pose proof (Hub _ (In_get_concat N N pattern r c Hshape Hr Hc)) as Hb.
      apply Rabs_bound. rewrite Rabs_div_pos by assumption.
      apply (Rmult_le_reg_r mx); [assumption|].
      unfold Rdiv. rewrite Rmult_assoc, Rinv_l by assumption. lra.
    + rewrite concat_map_map. apply amax_unique.
      * apply in_map_iff. exists (v0 / mx). split.
        -- rewrite Rabs_div_pos, Ev0 by assumption. now field.
        -- now apply (in_map (fun v => v / mx)).
      * intros x Hx. apply in_map_iff in Hx. destruct Hx as (y & <- & Hy).
        apply in_map_iff in Hy. destruct Hy as (v & <- & Hv).
        rewrite Rabs_div_pos by assumption.
        apply (Rmult_le_reg_r mx); [assumption|].
        unfold Rdiv. rewrite Rmult_assoc, Rinv_l by assumption.
        pose proof (Hub v Hv). lra.
Qed.

Lemma getRandomStreamFunction_spec_witness :
  exists max_val,
    amax (map Rabs (concat [[2 * (3 / 4) - 1]])) = Ok max_val /\
    (getRandomStreamFunction (fun _ _ => [[3 / 4]]) (fun a _ => a) 1 1
     = Raise ValueError <-> max_val = 0) /\
    (max_val <> 0 ->
     exists psi,
       getRandomStreamFunction (fun _ _ => [[3 / 4]]) (fun a _ => a) 1 1
       = Ok psi /\
       psi = map (map (fun v => v / max_val)) [[2 * (3 / 4) - 1]] /\
       rect 1 1 psi /\
       (forall r c, (r < 1)%nat -> (c < 1)%nat -> -1 <= get psi r c <= 1) /\
       amax (map Rabs (concat psi)) = Ok 1).
Proof.
  apply (getRandomStreamFunction_spec (fun _ _ => [[3 / 4]]) (fun a _ => a) 1 1).
  - lia.
  - lra.
  - split; [reflexivity | repeat constructor].
Defined.

(** ** Complex arithmetic *)

Ltac Calg :=
  unfold Csub, Cmul, Cadd, Copp, Cconj, RtoC, C0, C1, Ci, Cre, Cim;
  simpl; try (f_equal; ring).

Lemma C_ring : ring_theory C0 C1 Cadd Cmul Csub Copp (@eq C).
Proof.
  constructor; try (intros [a1 a2]; Calg); try reflexivity.
  - intros [b1 b2]. Calg.
  - intros [b1 b2] [c1 c2]. Calg.
  - intros [b1 b2]. Calg.
  - intros [b1 b2] [c1 c2]. Calg.
  - intros [b1 b2] [c1 c2]. Calg.
Qed.

Add Ring C_ring_inst : C_ring.

Lemma Cre_scale (a : R) (z : C) : Cre (Cmul (RtoC a) z) = a * Cre z.
Proof. Calg. ring. Qed.

Lemma Cre_add (a b : C) : Cre (Cadd a b) = Cre a + Cre b.
Proof. reflexivity. Qed.

Lemma Cim_add (a b : C) : Cim (Cadd a b) = Cim a + Cim b.
Proof. reflexivity. Qed.

Lemma C_real (z : C) : Cim z = 0 -> z = RtoC (Cre z).
Proof. destruct z as [a b]. unfold Cim, Cre, RtoC. simpl. now intros ->. Qed.

(** ** Finite sums *)

Lemma Csum_zero (n : nat) : Csum (fun _ => C0) n = C0.
Proof. induction n as [|n IH]; cbn [Csum]; [reflexivity|]. rewrite IH. ring. Qed.

Lemma Csum_add (f g : nat -> C) (n : nat) :
  Csum (fun k => Cadd (f k) (g k)) n = Cadd (Csum f n) (Csum g n).
Proof. induction n as [|n IH]; cbn [Csum]; [ring|]. rewrite IH. ring. Qed.

Lemma Csum_mul_l (z : C) (f : nat -> C) (n : nat) :
  Cmul z (Csum f n) = Csum (fun k => Cmul z (f k)) n.
Proof. induction n as [|n IH]; cbn [Csum]; [ring|]. rewrite <- IH. ring. Qed.

Lemma Csum_mul_r (z : C) (f : nat -> C) (n : nat) :
  Cmul (Csum f n) z = Csum (fun k => Cmul (f k) z) n.
Proof. induction n as [|n IH]; cbn [Csum]; [ring|]. rewrite <- IH. ring. Qed.

Lemma Csum_swap (f : nat -> nat -> C) (n m : nat) :
  Csum (fun k => Csum (f k) m) n = Csum (fun j => Csum (fun k => f k j) n) m.
Proof.
  induction n as [|n IH]; cbn [Csum].
  - now rewrite Csum_zero.
  - now rewrite IH, <- Csum_add.
Qed.

Lemma Csum_delta (f : nat -> C) (n r : nat) :
  (r < n)%nat ->
  Csum (fun k => if (k =? r)%nat then f k else C0) n = f r.
Proof.
  induction n as [|n IH]; intros Hr; cbn [Csum]; [lia|].
  destruct (Nat.eqb_spec n r) as [->|Hne].
  - rewrite (Csum_ext _ (fun _ => C0)), Csum_zero; [ring|].
    intros k Hk. destruct (Nat.eqb_spec k r); [lia | reflexivity].
  - rewrite IH by lia. ring.
Qed.

Lemma Cre_sum (f : nat -> C) (n : nat) :
  Cre (Csum f n) = Rsum (fun k => Cre (f k)) n.
Proof.
  induction n as [|n IH]; cbn [Csum Rsum]; [reflexivity|].
  now rewrite Cre_add, IH.
Qed.

Lemma Cim_sum (f : nat -> C) (n : nat) :
  Cim (Csum f n) = Rsum (fun k => Cim (f k)) n.
Proof.
  induction n as [|n IH]; cbn [Csum Rsum]; [reflexivity|].
  now rewrite Cim_add, IH.
Qed.

Lemma Rsum_zero (n : nat) : Rsum (fun _ => 0) n = 0.
Proof. induction n as [|n IH]; simpl; [reflexivity|]. rewrite IH. ring. Qed.

Lemma Rsum_add (f g : nat -> R) (n : nat) :
  Rsum (fun k => f k + g k) n = Rsum f n + Rsum g n.
Proof. induction n as [|n IH]; simpl; [ring|]. rewrite IH. ring. Qed.

Lemma Rsum_mul_l (z : R) (f : nat -> R) (n : nat) :
  z * Rsum f n = Rsum (fun k => z * f k) n.
Proof. induction n as [|n IH]; simpl; [ring|]. rewrite <- IH. ring. Qed.

Lemma Rsum_mul_r (z : R) (f : nat -> R) (n : nat) :
  Rsum f n * z = Rsum (fun k => f k * z) n.
Proof. induction n as [|n IH]; simpl; [ring|]. rewrite <- IH. ring. Qed.

Lemma Rsum_opp (f : nat -> R) (n : nat) :
  - Rsum f n = Rsum (fun k => - f k) n.
Proof. induction n as [|n IH]; simpl; [ring|]. rewrite <- IH. ring. Qed.

Lemma Rsum_swap (f : nat -> nat -> R) (n m : nat) :
  Rsum (fun k => Rsum (f k) m) n = Rsum (fun j => Rsum (fun k => f k j) n) m.
Proof.
  induction n as [|n IH]; simpl.
  - now rewrite Rsum_zero.
  - now rewrite IH, <- Rsum_add.
Qed.

(** ** The filter as a kernel *)

Lemma filter_kernel (g : nat -> C) (x : nat -> R) (N n : nat) :
  Cmul (RtoC (1 / INR N))
    (Csum (fun k =>
       Cmul (Cmul (g k)
               (Csum (fun m =>
                  Cmul (RtoC (x m))
                       (Cexp (- (2 * PI * INR k * INR m / INR N)))) N))
            (Cexp (2 * PI * INR k * INR n / INR N))) N)
  = Csum (fun m => Cmul (RtoC (x m)) (Kc g N n m)) N.
Proof.
  unfold Kc.
  rewrite (Csum_ext
    (fun m => Cmul (RtoC (x m)) (Cmul (RtoC (1 / INR N)) _))
    (fun m => Cmul (RtoC (1 / INR N))
       (Csum (fun k =>
          Cmul (Cmul (g k)
                  (Cmul (RtoC (x m))
                        (Cexp (- (2 * PI * INR k * INR m / INR N)))))
               (Cexp (2 * PI * INR k * INR n / INR N))) N))).
  - rewrite <- Csum_mul_l. f_equal. rewrite Csum_swap.
    apply Csum_ext. intros k _.
    rewrite Csum_mul_l, Csum_mul_r. reflexivity.
  - intros m _.
    assert (Hswap : forall a c S, Cmul a (Cmul c S) = Cmul c (Cmul a S))
      by (intros; ring).
    rewrite Hswap. f_equal. rewrite Csum_mul_l.
    apply Csum_ext. intros k _. ring.
Qed.

Lemma deriv_formula_linear (x : list R) (n : nat) :
  deriv_formula x n
  = Rsum (fun m => nth m x 0 * Dk (length x) n m) (length x).
Proof.
  unfold deriv_formula.
  rewrite (filter_kernel (iomega (length x)) (fun m => nth m x 0)).
  rewrite Cre_sum. apply Rsum_ext. intros m _. apply Cre_scale.
Qed.

(** ** Derivatives of tabulated fields *)

Lemma tabulate_ext {T : Type} (n m : nat) (F G : nat -> nat -> T) :
  (forall r c, (r < n)%nat -> (c < m)%nat -> F r c = G r c) ->
  tabulate n m F = tabulate n m G.
Proof.
  intros H. unfold tabulate. apply map_seq_ext. intros r Hr.
  apply map_seq_ext. intros c Hc. now apply H.
Qed.

Lemma rect_tabulate {T : Type} (n m : nat) (F : nat -> nat -> T) :
  rect n m (tabulate n m F).
Proof. apply rect_table. Qed.

Lemma field_tabulate (n m : nat) (A : list (list R)) :
  rect n m A -> A = tabulate n m (get A).
Proof. apply field_table. Qed.

Lemma map_map_tabulate {T U : Type} (g : T -> U) (n m : nat)
    (F : nat -> nat -> T) :
  map (map g) (tabulate n m F) = tabulate n m (fun r c => g (F r c)).
Proof.
  unfold tabulate. rewrite map_map. apply map_ext. intros r.
  now rewrite map_map.
Qed.

Lemma column_tabulate (n m j : nat) (F : nat -> nat -> R) :
  (j < m)%nat -> column j (tabulate n m F) = map (fun r => F r j) (seq 0 n).
Proof.
  intros Hj. unfold column, tabulate. rewrite map_map.
  apply map_ext. intros r. now apply nth_map_seq.
Qed.

Lemma transpose_tabulate (n m : nat) (F : nat -> nat -> R) :
  (1 <= n)%nat ->
  transpose (tabulate n m F) = tabulate m n (fun c r => F r c).
Proof.
  intros Hn. unfold transpose.
  rewrite (rect_ncols n m _ (rect_tabulate n m F) Hn).
  unfold tabulate at 2. apply map_seq_ext. intros j Hj.
  now apply column_tabulate.
Qed.

Lemma deriv_table_tabulated (m : nat) (G : nat -> R) :
  deriv_table (map G (seq 0 m))
  = map (fun c => Rsum (fun j => G j * Dk m c j) m) (seq 0 m).
Proof.
  unfold deriv_table. rewrite length_map_seq.
  apply map_seq_ext. intros c Hc.
  rewrite deriv_formula_linear, length_map_seq.
  apply Rsum_ext. intros j Hj. now rewrite nth_map_seq.
Qed.

Lemma ddx_tabulate (n m : nat) (F : nat -> nat -> R) :
  (1 <= n)%nat -> (1 <= m)%nat ->
  ddx (tabulate n m F)
  = Ok (tabulate n m (fun r c => Rsum (fun j => F r j * Dk m c j) m)).
Proof.
  intros Hn Hm.
  rewrite (ddx_table n m _ (rect_tabulate n m F) Hn Hm). f_equal.
  unfold tabulate. rewrite map_map. apply map_ext. intros r.
  apply deriv_table_tabulated.
Qed.

Lemma ddy_tabulate (n m : nat) (F : nat -> nat -> R) :
  (1 <= n)%nat -> (1 <= m)%nat ->
  ddy (tabulate n m F)
  = Ok (tabulate n m (fun r c => Rsum (fun l => F l c * Dk n r l) n)).
Proof.
  intros Hn Hm.
  rewrite (ddy_table n m _ (rect_tabulate n m F) Hn Hm). f_equal.
  rewrite transpose_tabulate by assumption.
  replace (map deriv_table (tabulate m n (fun c r => F r c)))
    with (tabulate m n (fun c r => Rsum (fun l => F l c * Dk n r l) n)).
  - now rewrite transpose_tabulate.
  - unfold tabulate. rewrite map_map. apply map_ext. intros c.
    symmetry. apply (deriv_table_tabulated n (fun r => F r c)).
Qed.

(** The mixed second derivatives, entry by entry. *)
Lemma mixed_partials_commute (N : nat) (F : nat -> nat -> R) (r c : nat) :
  Rsum (fun j => Rsum (fun l => F l j * Dk N r l) N * Dk N c j) N
  = Rsum (fun l => Rsum (fun j => F l j * Dk N c j) N * Dk N r l) N.
Proof.
  rewrite (Rsum_ext _ (fun j => Rsum (fun l => F l j * Dk N r l * Dk N c j) N))
    by (intros; apply Rsum_mul_r).
  rewrite Rsum_swap. apply Rsum_ext. intros l _.
  rewrite Rsum_mul_r. apply Rsum_ext. intros j _. ring.
Qed.

Lemma concat_tabulate_const (n m : nat) (v x : R) :
  In x (concat (tabulate n m (fun _ _ => v))) -> x = v.
Proof.
  intros Hin. apply in_concat in Hin. destruct Hin as (row & Hrow & Hx).
  apply in_map_iff in Hrow. destruct Hrow as (r & <- & _).
  apply in_map_iff in Hx. now destruct Hx as (c & <- & _).
Qed.

(** C2.  For a square field [psi] of shape [(N, N)], every [N >= 1] (so in
    particular up to [32]): with [vx = ddy(psi)] and [vy = -ddx(psi)] the
    divergence [ddx(vx) + ddy(vy)] is the zero field in exact arithmetic, its
    maximum absolute value is [0 < 1e-10], and the mixed spectral partials
    commute: [ddx(ddy(psi)) = ddy(ddx(psi))]. *)
Theorem stream_function_divergence_free (N : nat) (psi : list (list R)) :
  rect N N psi -> (1 <= N)%nat ->
  (exists d mx,
     stream_divergence psi = Ok d /\ rect N N d /\
     (forall r c, (r < N)%nat -> (c < N)%nat -> get d r c = 0) /\
     amax (map Rabs (concat d)) = Ok mx /\ mx < 1 / 10 ^ 10) /\
  (exists mixed,
     (vx <- ddy psi ;; ddx vx) = Ok mixed /\
     (dpsi <- ddx psi ;; ddy dpsi) = Ok mixed).
Proof.
  intros Hpsi HN. rewrite (field_tabulate N N psi Hpsi).
  generalize (get psi). intros F. split.
  - exists (tabulate N N (fun _ _ => 0)), 0.
    split; [|split; [apply rect_tabulate|split; [|split]]].
    + unfold stream_divergence.
      rewrite ddy_tabulate by assumption. cbn [bind].
      rewrite ddx_tabulate by assumption. cbn [bind].
      rewrite map_map_tabulate.
      rewrite ddx_tabulate by assumption. cbn [bind].
      rewrite ddy_tabulate by assumption. cbn [bind].
      rewrite (broadcast2_tabulate Rplus). f_equal.
      apply tabulate_ext. intros r c _ _.
      rewrite mixed_partials_commute, <- Rsum_add.
      rewrite (Rsum_ext _ (fun _ => 0)) by (intros; ring).
      apply Rsum_zero.
    + intros r c Hr Hc. now apply get_table.
    + apply amax_unique.
      * apply in_map_iff. exists 0. split; [apply Rabs_R0|].
        replace 0 with (get (tabulate N N (fun _ _ => 0)) 0 0) at 1
          by (now apply get_table).
        apply (In_get_concat N N); [apply rect_tabulate | lia | lia].
      * intros x Hx. apply in_map_iff in Hx. destruct Hx as (y & <- & Hy).
        apply concat_tabulate_const in Hy. subst y. rewrite Rabs_R0. lra.
    + apply Rdiv_lt_0_compat; [lra|]. apply pow_lt. lra.
  - eexists. split.
    + rewrite ddy_tabulate by assumption. cbn [bind].
      apply ddx_tabulate; assumption.
    + rewrite ddx_tabulate by assumption. cbn [bind].
      rewrite ddy_tabulate by assumption. f_equal.
      apply tabulate_ext. intros r c _ _. symmetry.
      apply mixed_partials_commute.
Qed.

Lemma stream_function_divergence_free_witness :
  (exists d mx,
     stream_divergence [[1; 2]; [3; 4]] = Ok d /\ rect 2 2 d /\
     (forall r c, (r < 2)%nat -> (c < 2)%nat -> get d r c = 0) /\
     amax (map Rabs (concat d)) = Ok mx /\ mx < 1 / 10 ^ 10) /\
  (exists mixed,
     (vx <- ddy [[1; 2]; [3; 4]] ;; ddx vx) = Ok mixed /\
     (dpsi <- ddx [[1; 2]; [3; 4]] ;; ddy dpsi) = Ok mixed).
Proof.
  apply (stream_function_divergence_free 2 [[1; 2]; [3; 4]]); [|lia].
  split; [reflexivity | repeat constructor].
Defined.

(** ** [getOkuboWeiss] as tables *)

Lemma concat_singletons {T : Type} (l : list T) :
  concat (map (fun v => [v]) l) = l.
Proof. induction l as [|x l IH]; simpl; [reflexivity | now rewrite IH]. Qed.

Lemma meshgrid_tables (n : nat) (fr : nat -> R) :
  meshgrid (reshape_col (map fr (seq 0 n))) (reshape_row (map fr (seq 0 n)))
  = (tabulate n n (fun _ c => fr c), tabulate n n (fun r _ => fr r)).
Proof.
  unfold meshgrid, reshape_col, reshape_row.
  rewrite concat_singletons. cbn [concat]. rewrite app_nil_r.
  unfold tabulate. f_equal; rewrite map_map; [reflexivity|].
  apply map_ext. intros r. now rewrite map_map.
Qed.

Lemma cget_tabulate (n m : nat) (F : nat -> nat -> C) (r c : nat) :
  (r < n)%nat -> (c < m)%nat -> cget (tabulate n m F) r c = F r c.
Proof.
  intros Hr Hc. unfold cget, tabulate.
  rewrite (nth_map_seq (fun r => map (F r) (seq 0 m))) by assumption.
  now apply nth_map_seq.
Qed.

Lemma dft2_real_table (N : nat) (psi : list (list R)) :
  rect N N psi -> (1 <= N)%nat ->
  fft2 (map (map RtoC) psi) = Ok (tabulate N N (psi_hat_formula psi)).
Proof.
  intros Hpsi HN.
  pose proof (rect_map_map N N RtoC psi Hpsi) as Hc.
  unfold fft2, dft2.
  rewrite (rect_nrows N N _ Hc), (rect_ncols N N _ Hc HN).
  destruct (Nat.eqb_spec N 0) as [E|_]; [lia|]. cbn [orb]. f_equal.
  apply tabulate_ext. intros u v _ _. unfold psi_hat_formula.
  rewrite (rect_nrows N N psi Hpsi).
  apply Csum_ext. intros r Hr. apply Csum_ext. intros c Hcc.
  f_equal. rewrite (field_tabulate N N psi Hpsi) at 1.
  rewrite map_map_tabulate. now apply cget_tabulate.
Qed.

Lemma ifft2_tabulate (N : nat) (H : nat -> nat -> C) :
  (1 <= N)%nat ->
  ifft2 (tabulate N N H)
  = Ok (tabulate N N (fun r c =>
      Cmul (RtoC (1 / (INR N * INR N)))
        (Csum (fun u => Csum (fun v =>
           Cmul (H u v)
                (Cmul (Cexp (2 * PI * INR u * INR r / INR N))
                      (Cexp (2 * PI * INR v * INR c / INR N)))) N) N))).
Proof.
  intros HN. unfold ifft2, idft2.
  rewrite (rect_nrows N N _ (rect_tabulate N N H)).
  rewrite (rect_ncols N N _ (rect_tabulate N N H) HN).
  destruct (Nat.eqb_spec N 0) as [E|_]; [lia|]. cbn [orb]. f_equal.
  apply tabulate_ext. intros r c _ _. f_equal.
  apply Csum_ext. intros u Hu. apply Csum_ext. intros v Hv.
  now rewrite cget_tabulate.
Qed.

Lemma wavenumber_factor (N k : nat) :
  (1 <= N)%nat ->
  Cmul two_pi_i (RtoC (IZR (mode N k) * (1 / (INR N * 1)))) = iomega N k.
Proof.
  intros HN. pose proof (INR_pos N HN).
  unfold two_pi_i, iomega, omega, Cmul, RtoC, Ci. simpl.
  f_equal; field; lra.
Qed.

Lemma okubo_partials_table (N : nat) (psi : list (list R)) :
  rect N N psi -> (1 <= N)%nat ->
  okubo_partials psi
  = Ok (tabulate N N (psi_xy_formula psi),
        tabulate N N (psi_xx_formula psi),
        tabulate N N (psi_yy_formula psi)).
Proof.
  intros Hpsi HN. unfold okubo_partials.
  rewrite (rect_nrows N N psi Hpsi).
  rewrite fftfreq_table by assumption. cbn [bind].
  rewrite meshgrid_tables.
  rewrite (dft2_real_table N psi Hpsi HN). cbn [bind].
  unfold ik, csquare. rewrite !map_map_tabulate.
  rewrite (broadcast2_tabulate Cmul). cbn [bind].
  rewrite (broadcast2_tabulate Cmul). cbn [bind].
  rewrite ifft2_tabulate by assumption. cbn [bind].
  rewrite (broadcast2_tabulate Cmul). cbn [bind].
  rewrite ifft2_tabulate by assumption. cbn [bind].
  rewrite (broadcast2_tabulate Cmul). cbn [bind].
  rewrite ifft2_tabulate by assumption. cbn [bind].
  unfold creal. rewrite !map_map_tabulate.
  unfold psi_xy_formula, psi_xx_formula, psi_yy_formula, inverse2_formula,
    ikx, iky.
  rewrite (rect_nrows N N psi Hpsi).
  do 2 f_equal; [f_equal|..]; apply tabulate_ext; intros r c _ _;
    do 2 f_equal; apply Csum_ext; intros u _; apply Csum_ext; intros v _;
    rewrite !wavenumber_factor by assumption; reflexivity.
Qed.

(** C4.  On a square field of shape [(N, N)], [N >= 1], [getOkuboWeiss]
    returns [Q = psi_xy^2 - psi_xx psi_yy], the three partials being the real
    parts of the inverse transforms of the one forward transform of [psi]
    with coefficient [(u, v)] multiplied by [(i 2 pi kx)(i 2 pi ky)],
    [(i 2 pi kx)^2] and [(i 2 pi ky)^2].  The grids the code builds with
    [np.meshgrid] have [kx] equal to the frequency of the column index and
    [ky] to the frequency of the row index, both [k / N] in the ordering of
    [mode]; accordingly the local [psi_xx] carries the multiplier of the
    column mode [v] and [psi_yy] that of the row mode [u], at the same
    position [(u, v)] as the transform of [psi]. *)
Theorem getOkuboWeiss_spec (N : nat) (psi : list (list R)) :
  rect N N psi -> (1 <= N)%nat ->
  exists f kx ky psi_xy psi_xx psi_yy Q,
    fftfreq (nrows psi) 1 = Ok f /\
    meshgrid (reshape_col f) (reshape_row f) = (kx, ky) /\
    rect N N kx /\ rect N N ky /\
    (forall r c, (r < N)%nat -> (c < N)%nat ->
       get kx r c = IZR (mode N c) / INR N /\
       get ky r c = IZR (mode N r) / INR N) /\
    okubo_partials psi = Ok (psi_xy, psi_xx, psi_yy) /\
    rect N N psi_xy /\ rect N N psi_xx /\ rect N N psi_yy /\
    (forall r c, (r < N)%nat -> (c < N)%nat ->
       get psi_xy r c = psi_xy_formula psi r c /\
       get psi_xx r c = psi_xx_formula psi r c /\
       get psi_yy r c = psi_yy_formula psi r c) /\
    getOkuboWeiss psi = Ok Q /\ rect N N Q /\
    (forall r c, (r < N)%nat -> (c < N)%nat ->
       get Q r c
       = get psi_xy r c * get psi_xy r c - get psi_xx r c * get psi_yy r c) /\
    (forall r c, (r < N)%nat -> (c < N)%nat ->
       get Q r c
       = psi_xy_formula psi r c * psi_xy_formula psi r c
         - psi_xx_formula psi r c * psi_yy_formula psi r c) /\
    (forall u v, ikx N u v = Cmul Ci (RtoC (2 * PI * IZR (mode N v) / INR N)) /\
                 iky N u v = Cmul Ci (RtoC (2 * PI * IZR (mode N u) / INR N))).
Proof.
  intros Hpsi HN. pose proof (INR_pos N HN) as Hpos.
  set (fr := fun k => IZR (mode N k) * (1 / (INR N * 1))).
  exists (map fr (seq 0 N)),
         (tabulate N N (fun _ c => fr c)), (tabulate N N (fun r _ => fr r)),
         (tabulate N N (psi_xy_formula psi)),
         (tabulate N N (psi_xx_formula psi)),
         (tabulate N N (psi_yy_formula psi)),
         (tabulate N N (fun r c =>
            psi_xy_formula psi r c * psi_xy_formula psi r c
            - psi_xx_formula psi r c * psi_yy_formula psi r c)).
  split; [rewrite (rect_nrows N N psi Hpsi); now apply fftfreq_table|].
  split; [apply meshgrid_tables|].
  split; [apply rect_tabulate|]. split; [apply rect_tabulate|].
  split.
  { intros r c Hr Hc.
    rewrite (get_table N N (fun _ c => fr c)) by assumption.
    rewrite (get_table N N (fun r _ => fr r)) by assumption.
    unfold fr. split; field; lra. }
  split; [now apply okubo_partials_table|].
  split; [apply rect_tabulate|]. split; [apply rect_tabulate|].
  split; [apply rect_tabulate|].
  split.
  { intros r c Hr Hc.
    rewrite (get_table N N (psi_xy_formula psi)) by assumption.
    rewrite (get_table N N (psi_xx_formula psi)) by assumption.
    rewrite (get_table N N (psi_yy_formula psi)) by assumption.
    repeat split. }
  split.
  { unfold getOkuboWeiss.
    rewrite (okubo_partials_table N psi Hpsi HN). cbn [bind].
    rewrite !(broadcast2_tabulate Rmult). cbn [bind].
    apply (broadcast2_tabulate Rminus). }
  split; [apply rect_tabulate|].
  split.
  { intros r c Hr Hc.
    rewrite (get_table N N (psi_xy_formula psi)) by assumption.
    rewrite (get_table N N (psi_xx_formula psi)) by assumption.
    rewrite (get_table N N (psi_yy_formula psi)) by assumption.
    now apply (get_table N N (fun r c =>
      psi_xy_formula psi r c * psi_xy_formula psi r c
      - psi_xx_formula psi r c * psi_yy_formula psi r c)). }
  split.
  { intros r c Hr Hc.
    now apply (get_table N N (fun r c =>
      psi_xy_formula psi r c * psi_xy_formula psi r c
      - psi_xx_formula psi r c * psi_yy_formula psi r c)). }
  intros u v. split; reflexivity.
Qed.

Lemma getOkuboWeiss_spec_witness :
  exists f kx ky psi_xy psi_xx psi_yy Q,
    fftfreq (nrows [[1; 2]; [3; 4]]) 1 = Ok f /\
    meshgrid (reshape_col f) (reshape_row f) = (kx, ky) /\
    rect 2 2 kx /\ rect 2 2 ky /\
    (forall r c, (r < 2)%nat -> (c < 2)%nat ->
       get kx r c = IZR (mode 2 c) / INR 2 /\
       get ky r c = IZR (mode 2 r) / INR 2) /\
    okubo_partials [[1; 2]; [3; 4]] = Ok (psi_xy, psi_xx, psi_yy) /\
    rect 2 2 psi_xy /\ rect 2 2 psi_xx /\ rect 2 2 psi_yy /\
    (forall r c, (r < 2)%nat -> (c < 2)%nat ->
       get psi_xy r c = psi_xy_formula [[1; 2]; [3; 4]] r c /\
       get psi_xx r c = psi_xx_formula [[1; 2]; [3; 4]] r c /\
       get psi_yy r c = psi_yy_formula [[1; 2]; [3; 4]] r c) /\
    getOkuboWeiss [[1; 2]; [3; 4]] = Ok Q /\ rect 2 2 Q /\
    (forall r c, (r < 2)%nat -> (c < 2)%nat ->
       get Q r c
       = get psi_xy r c * get psi_xy r c - get psi_xx r c * get psi_yy r c) /\
    (forall r c, (r < 2)%nat -> (c < 2)%nat ->
       get Q r c
       = psi_xy_formula [[1; 2]; [3; 4]] r c
           * psi_xy_formula [[1; 2]; [3; 4]] r c
         - psi_xx_formula [[1; 2]; [3; 4]] r c
           * psi_yy_formula [[1; 2]; [3; 4]] r c) /\
    (forall u v, ikx 2 u v = Cmul Ci (RtoC (2 * PI * IZR (mode 2 v) / INR 2)) /\
                 iky 2 u v = Cmul Ci (RtoC (2 * PI * IZR (mode 2 u) / INR 2))).
Proof.
  apply (getOkuboWeiss_spec 2 [[1; 2]; [3; 4]]); [|lia].
  split; [reflexivity | repeat constructor].
Defined.

(** ** Exponentials and roots of unity *)

Lemma Cexp_add (a b : R) : Cexp (a + b) = Cmul (Cexp a) (Cexp b).
Proof. unfold Cexp, Cmul. simpl. rewrite cos_plus, sin_plus. f_equal; ring. Qed.

Lemma Cexp_neg (a : R) : Cexp (- a) = Cconj (Cexp a).
Proof. unfold Cexp, Cconj. simpl. now rewrite cos_neg, sin_neg. Qed.

Lemma Cexp_0 : Cexp 0 = C1.
Proof. unfold Cexp, C1. now rewrite cos_0, sin_0. Qed.

Lemma Cexp_conj_mul (a : R) : Cmul (Cconj (Cexp a)) (Cexp a) = C1.
Proof.
  unfold Cexp, Cconj, Cmul, C1. simpl.
  pose proof (sin2_cos2 a) as H. unfold Rsqr in H.
  f_equal; [lra | ring].
Qed.

Lemma Cexp_turns (k : nat) : Cexp (2 * PI * INR k) = C1.
Proof.
  unfold Cexp, C1.
  replace (2 * PI * INR k) with (0 + 2 * INR k * PI) by ring.
  now rewrite cos_period, sin_period, cos_0, sin_0.
Qed.

Lemma Cexp_shift (x : R) (k : nat) : Cexp (x + 2 * PI * INR k) = Cexp x.
Proof. rewrite Cexp_add, Cexp_turns. ring. Qed.

Lemma cos_lt_1 (x : R) : 0 < x < 2 * PI -> cos x < 1.
Proof.
  intros [H0 H2]. pose proof PI_RGT_0 as Hpi.
  destruct (Rle_dec x PI) as [Hle|Hgt].
  - rewrite <- cos_0. apply cos_decreasing_1; lra.
  - replace x with (- (2 * PI - x) + 2 * INR 1 * PI) by (simpl; ring).
    rewrite cos_period, cos_neg, <- cos_0.
    apply cos_decreasing_1; lra.
Qed.

Lemma Cexp_not_1 (x : R) : 0 < Rabs x < 2 * PI -> Cexp x <> C1.
Proof.
  intros H E. unfold Cexp, C1 in E. injection E as Ec _.
  assert (cos (Rabs x) = 1).
  { unfold Rabs. destruct (Rcase_abs x); [now rewrite cos_neg | assumption]. }
  pose proof (cos_lt_1 (Rabs x) H). lra.
Qed.

Lemma Cmul_integral (a b : C) : Cmul a b = C0 -> a <> C0 -> b = C0.
Proof.
  destruct a as [a1 a2], b as [b1 b2]. unfold Cmul, C0. simpl.
  intros E Ha. injection E as E1 E2.
  assert (Hn : a1 * a1 + a2 * a2 <> 0).
  { intros Hz. apply Ha.
    pose proof (Rle_0_sqr a1) as S1. pose proof (Rle_0_sqr a2) as S2.
    unfold Rsqr in S1, S2.
    assert (Z1 : a1 * a1 = 0) by lra. assert (Z2 : a2 * a2 = 0) by lra.
    apply Rmult_integral in Z1, Z2.
    assert (a1 = 0) by tauto. assert (a2 = 0) by tauto. now subst. }
  assert (Hb1 : (a1 * a1 + a2 * a2) * b1 = 0).
  { replace ((a1 * a1 + a2 * a2) * b1)
      with (a1 * (a1 * b1 - a2 * b2) + a2 * (a1 * b2 + a2 * b1)) by ring.
    rewrite E1, E2. ring. }
  assert (Hb2 : (a1 * a1 + a2 * a2) * b2 = 0).
  { replace ((a1 * a1 + a2 * a2) * b2)
      with (a1 * (a1 * b2 + a2 * b1) - a2 * (a1 * b1 - a2 * b2)) by ring.
    rewrite E1, E2. ring. }
  apply Rmult_integral in Hb1, Hb2.
  destruct Hb1 as [?|Z1], Hb2 as [?|Z2]; try contradiction.
  now rewrite Z1, Z2.
Qed.

(** The geometric sum of the powers of [exp(i phi)]. *)
Lemma Csum_geometric (phi : R) (n : nat) :
  Cmul (Csub (Cexp phi) C1) (Csum (fun l => Cexp (phi * INR l)) n)
  = Csub (Cexp (phi * INR n)) C1.
Proof.
  induction n as [|n IH].
  - cbn [Csum]. simpl INR. rewrite Rmult_0_r, Cexp_0. ring.
  - cbn [Csum]. rewrite S_INR.
    replace (phi * (INR n + 1)) with (phi * INR n + phi) by ring.
    rewrite Cexp_add.
    transitivity (Cadd (Cmul (Csub (Cexp phi) C1)
                          (Csum (fun l => Cexp (phi * INR l)) n))
                       (Cmul (Csub (Cexp phi) C1) (Cexp (phi * INR n))));
      [ring|].
    rewrite IH. ring.
Qed.

Lemma Csum_ones (n : nat) : Csum (fun _ => C1) n = RtoC (INR n).
Proof.
  induction n as [|n IH]; [reflexivity|].
  cbn [Csum]. rewrite IH, S_INR. Calg.
Qed.

(** Orthogonality of the modes: summing over the second index. *)
Lemma modes_orthogonal (N k j : nat) :
  (k < N)%nat -> (j < N)%nat ->
  Csum (fun l => Cmul (Cexp (- (2 * PI * INR k * INR l / INR N)))
                      (Cexp (2 * PI * INR j * INR l / INR N))) N
  = if (k =? j)%nat then RtoC (INR N) else C0.
Proof.
  intros Hk Hj. assert (HN : 0 < INR N) by (apply INR_pos; lia).
  destruct (Nat.eqb_spec k j) as [->|Hne].
  - rewrite (Csum_ext _ (fun _ => C1)); [apply Csum_ones|].
    intros l _. rewrite Cexp_neg. apply Cexp_conj_mul.
  - set (phi := 2 * PI * (INR j - INR k) / INR N).
    rewrite (Csum_ext _ (fun l => Cexp (phi * INR l))).
    2:{ intros l _. rewrite <- Cexp_add. f_equal. unfold phi. field. lra. }
    apply Cmul_integral with (a := Csub (Cexp phi) C1).
    + rewrite Csum_geometric.
      replace (phi * INR N) with (- (2 * PI * INR k) + 2 * PI * INR j)
        by (unfold phi; field; lra).
      rewrite Cexp_shift, Cexp_neg, Cexp_turns. Calg.
    + intros E. apply (Cexp_not_1 phi).
      * assert (Hd : 0 < Rabs (INR j - INR k) < INR N).
        { apply lt_INR in Hk, Hj.
          assert (INR j <> INR k) by (intros Q; apply INR_eq in Q; lia).
          pose proof (pos_INR j). pose proof (pos_INR k).
          unfold Rabs. destruct (Rcase_abs (INR j - INR k)); lra. }
        assert (Ephi : Rabs phi = 2 * PI * (Rabs (INR j - INR k) / INR N)).
        { unfold phi, Rdiv. pose proof PI_RGT_0.
          rewrite !Rabs_mult.
          rewrite (Rabs_right 2) by lra.
          rewrite (Rabs_right PI) by lra.
          rewrite (Rabs_right (/ INR N))
            by (apply Rle_ge, Rlt_le, Rinv_0_lt_compat, HN).
          ring. }
        rewrite Ephi. pose proof PI_RGT_0 as Hpi.
        assert (0 < Rabs (INR j - INR k) / INR N < 1).
        { split.
          - apply Rdiv_lt_0_compat; lra.
          - apply (Rmult_lt_reg_r (INR N)); [lra|].
            unfold Rdiv. rewrite Rmult_assoc, Rinv_l; lra. }
        nra.
      * destruct (Cexp phi) as [a b]. revert E. Calg. intros E.
        injection E as E1 E2. unfold C1. f_equal; lra.
Qed.

(** Orthogonality, summing over the first index. *)
Lemma modes_orthogonal_fst (N r' r : nat) :
  (r' < N)%nat -> (r < N)%nat ->
  Csum (fun u => Cmul (Cexp (- (2 * PI * INR u * INR r' / INR N)))
                      (Cexp (2 * PI * INR u * INR r / INR N))) N
  = if (r' =? r)%nat then RtoC (INR N) else C0.
Proof.
  intros Hr' Hr. rewrite <- (modes_orthogonal N r' r Hr' Hr).
  apply Csum_ext. intros u _. do 2 f_equal; [f_equal|]; unfold Rdiv; ring.
Qed.

Lemma scale_unit (N : nat) :
  (1 <= N)%nat -> Cmul (RtoC (1 / INR N)) (RtoC (INR N)) = C1.
Proof.
  intros HN. pose proof (INR_pos N HN).
  unfold Cmul, RtoC, C1. simpl. f_equal; field; lra.
Qed.

(** ** Kernels *)

(** The identity multiplier gives the identity kernel. *)
Lemma Kc_one (N n m : nat) :
  (n < N)%nat -> (m < N)%nat ->
  Kc (fun _ => C1) N n m = if (m =? n)%nat then C1 else C0.
Proof.
  intros Hn Hm. unfold Kc.
  rewrite (Csum_ext _ (fun k =>
    Cmul (Cexp (- (2 * PI * INR k * INR m / INR N)))
         (Cexp (2 * PI * INR k * INR n / INR N)))) by (intros; ring).
  rewrite modes_orthogonal_fst by assumption.
  destruct (m =? n)%nat; [apply scale_unit; lia | ring].
Qed.

(** Applying two filters in a row multiplies their multipliers. *)
Lemma Kc_compose (g h : nat -> C) (N n m : nat) :
  (1 <= N)%nat ->
  Csum (fun l => Cmul (Kc g N n l) (Kc h N l m)) N
  = Kc (fun k => Cmul (g k) (h k)) N n m.
Proof.
  intros HN. unfold Kc. set (s := RtoC (1 / INR N)).
  rewrite (Csum_ext _ (fun l => Cmul (Cmul s s)
    (Csum (fun k => Csum (fun j =>
       Cmul (Cmul (Cmul (g k) (Cexp (- (2 * PI * INR k * INR l / INR N))))
                  (Cexp (2 * PI * INR k * INR n / INR N)))
            (Cmul (Cmul (h j) (Cexp (- (2 * PI * INR j * INR m / INR N))))
                  (Cexp (2 * PI * INR j * INR l / INR N)))) N) N))).
  2:{ intros l _.
      assert (A : forall a b, Cmul (Cmul s a) (Cmul s b)
                              = Cmul (Cmul s s) (Cmul a b)) by (intros; ring).
      rewrite A. f_equal. rewrite Csum_mul_r.
      apply Csum_ext. intros k _. apply Csum_mul_l. }
  rewrite <- Csum_mul_l, Csum_swap.
  rewrite (Csum_ext _ (fun k =>
    Cmul (RtoC (INR N))
      (Cmul (Cmul (Cmul (g k) (h k))
                  (Cexp (- (2 * PI * INR k * INR m / INR N))))
            (Cexp (2 * PI * INR k * INR n / INR N))))).
  - rewrite <- Csum_mul_l.
    assert (A : forall a b c, Cmul (Cmul a a) (Cmul b c)
                              = Cmul a (Cmul (Cmul a b) c)) by (intros; ring).
    rewrite A. unfold s. rewrite scale_unit by assumption. ring.
  - intros k Hk. rewrite Csum_swap.
    rewrite (Csum_ext _ (fun j =>
      if (j =? k)%nat
      then Cmul (Cmul (Cmul (g k) (Cexp (2 * PI * INR k * INR n / INR N)))
                      (Cmul (h j) (Cexp (- (2 * PI * INR j * INR m / INR N)))))
                (RtoC (INR N))
      else C0)).
    + rewrite Csum_delta by assumption. ring.
    + intros j Hj.
      rewrite (Csum_ext _ (fun l =>
        Cmul (Cmul (Cmul (g k) (Cexp (2 * PI * INR k * INR n / INR N)))
                   (Cmul (h j) (Cexp (- (2 * PI * INR j * INR m / INR N)))))
             (Cmul (Cexp (- (2 * PI * INR k * INR l / INR N)))
                   (Cexp (2 * PI * INR j * INR l / INR N)))))
        by (intros; ring).
      rewrite <- Csum_mul_l, modes_orthogonal by assumption.
      rewrite (Nat.eqb_sym j k). destruct (k =? j)%nat; [reflexivity | ring].
Qed.

Lemma Csum4_swap (f : nat -> nat -> nat -> nat -> C) (n m p q : nat) :
  Csum (fun u => Csum (fun v => Csum (fun r => Csum (f u v r) q) p) m) n
  = Csum (fun r => Csum (fun c => Csum (fun u => Csum (fun v =>
      f u v r c) m) n) q) p.
Proof.
  rewrite (Csum_ext _ (fun u => Csum (fun r => Csum (fun v =>
    Csum (f u v r) q) m) p)) by (intros; apply Csum_swap).
  rewrite Csum_swap. apply Csum_ext. intros r _.
  rewrite (Csum_ext _ (fun u => Csum (fun c => Csum (fun v =>
    f u v r c) m) q)) by (intros; apply Csum_swap).
  apply Csum_swap.
Qed.

(** The two-dimensional filter with a product multiplier [a u * b v] as a
    product of two one-dimensional kernels. *)
Lemma inverse2_kernel (a b : nat -> C) (F : nat -> nat -> R) (N r c : nat) :
  (1 <= N)%nat ->
  Cmul (RtoC (1 / (INR N * INR N)))
    (Csum (fun u => Csum (fun v =>
       Cmul (Cmul (Cmul (a u) (b v))
               (Csum (fun r' => Csum (fun c' =>
                  Cmul (RtoC (F r' c'))
                       (Cmul (Cexp (- (2 * PI * INR u * INR r' / INR N)))
                             (Cexp (- (2 * PI * INR v * INR c' / INR N)))))
                  N) N))
            (Cmul (Cexp (2 * PI * INR u * INR r / INR N))
                  (Cexp (2 * PI * INR v * INR c / INR N)))) N) N)
  = Csum (fun r' => Csum (fun c' =>
      Cmul (RtoC (F r' c')) (Cmul (Kc a N r r') (Kc b N c c'))) N) N.
Proof.
  intros HN. pose proof (INR_pos N HN) as Hpos.
  set (s := RtoC (1 / INR N)).
  assert (Es : RtoC (1 / (INR N * INR N)) = Cmul s s).
  { unfold s, Cmul, RtoC. simpl. f_equal; field; lra. }
  set (T := fun u v r' c' =>
    Cmul (RtoC (F r' c'))
      (Cmul (Cmul (Cmul (a u) (Cexp (- (2 * PI * INR u * INR r' / INR N))))
                  (Cexp (2 * PI * INR u * INR r / INR N)))
            (Cmul (Cmul (b v) (Cexp (- (2 * PI * INR v * INR c' / INR N))))
                  (Cexp (2 * PI * INR v * INR c / INR N))))).
  transitivity (Cmul (Cmul s s)
    (Csum (fun r' => Csum (fun c' => Csum (fun u => Csum (fun v =>
       T u v r' c') N) N) N) N)).
  - rewrite Es. f_equal. rewrite <- Csum4_swap.
    apply Csum_ext. intros u _. apply Csum_ext. intros v _.
    rewrite Csum_mul_l, Csum_mul_r. apply Csum_ext. intros r' _.
    rewrite Csum_mul_l, Csum_mul_r. apply Csum_ext. intros c' _.
    unfold T. ring.
  - rewrite Csum_mul_l. apply Csum_ext. intros r' _.
    rewrite Csum_mul_l. apply Csum_ext. intros c' _.
    unfold Kc. fold s.
    assert (A : forall x p q, Cmul x (Cmul (Cmul s p) (Cmul s q))
                              = Cmul (Cmul s s) (Cmul x (Cmul p q)))
      by (intros; ring).
    rewrite A. f_equal.
    rewrite Csum_mul_r, Csum_mul_l. apply Csum_ext. intros u _.
    rewrite !Csum_mul_l. apply Csum_ext. intros v _. reflexivity.
Qed.

(** ** Odd lengths: the derivative kernel is real *)

Lemma odd_half (N : nat) :
  Nat.odd N = true -> (1 <= N)%nat /\ (N = 2 * ((N - 1) / 2) + 1)%nat.
Proof.
  intros Ho. apply Nat.odd_spec in Ho. destruct Ho as [h ->].
  split; [lia|].
  replace (2 * h + 1 - 1)%nat with (h * 2)%nat by lia.
  rewrite Nat.div_mul by lia. lia.
Qed.

Lemma mode_zero (N : nat) : mode N 0 = 0%Z.
Proof. unfold mode. destruct (Nat.leb_spec 0 ((N - 1) / 2)); [reflexivity | lia]. Qed.

Lemma mode_reflect (N k : nat) :
  Nat.odd N = true -> (1 <= k < N)%nat ->
  mode N (N - k) = (- mode N k)%Z.
Proof.
  intros Ho Hk. destruct (odd_half N Ho) as [_ Hh].
  set (h := ((N - 1) / 2)%nat) in *. unfold mode. fold h.
  destruct (Nat.leb_spec (N - k) h), (Nat.leb_spec k h); lia.
Qed.

Lemma omega_zero (N : nat) : omega N 0 = 0.
Proof. unfold omega. rewrite mode_zero. unfold Rdiv. ring. Qed.

Lemma omega_reflect (N k : nat) :
  Nat.odd N = true -> (1 <= k < N)%nat -> omega N (N - k) = - omega N k.
Proof.
  intros Ho Hk. unfold omega. rewrite mode_reflect by assumption.
  rewrite opp_IZR. unfold Rdiv. ring.
Qed.

Lemma Rsum_shift (f : nat -> R) (n : nat) :
  Rsum f (S n) = f 0%nat + Rsum (fun k => f (S k)) n.
Proof.
  induction n as [|n IH]; [simpl; ring|].
  change (Rsum f (S (S n))) with (Rsum f (S n) + f (S n)).
  rewrite IH. simpl. ring.
Qed.

Lemma Rsum_reverse (f : nat -> R) (n : nat) :
  Rsum f n = Rsum (fun k => f (n - 1 - k)%nat) n.
Proof.
  induction n as [|n IH]; [reflexivity|].
  rewrite (Rsum_shift (fun k => f (S n - 1 - k)%nat) n).
  change (Rsum f (S n)) with (Rsum f n + f n).
  replace (S n - 1 - 0)%nat with n by lia.
  rewrite IH, Rplus_comm. f_equal.
  apply Rsum_ext. intros k Hk. f_equal. lia.
Qed.

(** A sequence that is odd under [k -> N - k] sums to zero. *)
Lemma Rsum_antisymmetric (f : nat -> R) (N : nat) :
  f 0%nat = 0 ->
  (forall k, (1 <= k < N)%nat -> f (N - k)%nat = - f k) ->
  Rsum f N = 0.
Proof.
  intros H0 Hrefl. destruct N as [|n]; [reflexivity|].
  rewrite Rsum_shift, H0.
  assert (E : Rsum (fun k => f (S k)) n = - Rsum (fun k => f (S k)) n).
  { rewrite (Rsum_reverse (fun k => f (S k)) n) at 1.
    rewrite Rsum_opp. apply Rsum_ext. intros k Hk.
    rewrite <- (Hrefl (S k)) by lia. f_equal. lia. }
  lra.
Qed.

Lemma cos_shift_turns (x : R) (a b : nat) :
  cos (- x - 2 * PI * INR b + 2 * PI * INR a) = cos x.
Proof.
  replace (- x - 2 * PI * INR b + 2 * PI * INR a)
    with (- x - 2 * PI * INR b + 2 * INR a * PI) by ring.
  rewrite cos_period.
  rewrite <- (cos_period (- x - 2 * PI * INR b) b).
  replace (- x - 2 * PI * INR b + 2 * INR b * PI) with (- x) by ring.
  apply cos_neg.
Qed.

Lemma Cim_scale (a : R) (z : C) : Cim (Cmul (RtoC a) z) = a * Cim z.
Proof. Calg. ring. Qed.

Lemma Kc_iomega_real (N n m : nat) :
  Nat.odd N = true -> Cim (Kc (iomega N) N n m) = 0.
Proof.
  intros Ho. destruct (odd_half N Ho) as [HN _].
  pose proof (INR_pos N HN) as Hpos.
  unfold Kc. rewrite Cim_scale, Cim_sum.
  rewrite (Rsum_ext _ (fun k =>
    omega N k * cos (2 * PI * INR k * INR n / INR N
                     - 2 * PI * INR k * INR m / INR N))).
  - rewrite Rsum_antisymmetric; [ring | now rewrite omega_zero, Rmult_0_l |].
    intros k Hk. rewrite omega_reflect by assumption.
    rewrite minus_INR by lia.
    replace (2 * PI * (INR N - INR k) * INR n / INR N
             - 2 * PI * (INR N - INR k) * INR m / INR N)
      with (- (2 * PI * INR k * INR n / INR N
               - 2 * PI * INR k * INR m / INR N)
            - 2 * PI * INR m + 2 * PI * INR n) by (field; lra).
    rewrite cos_shift_turns. ring.
  - intros k _. unfold iomega, Cmul, Ci, RtoC, Cexp, Cim. simpl.
    rewrite cos_neg, sin_neg, cos_minus. ring.
Qed.

Lemma Kc_iomega_RtoC (N n m : nat) :
  Nat.odd N = true -> Kc (iomega N) N n m = RtoC (Dk N n m).
Proof. intros Ho. apply C_real. now apply Kc_iomega_real. Qed.

Lemma Dk_compose (N n m : nat) :
  Nat.odd N = true ->
  Rsum (fun l => Dk N n l * Dk N l m) N
  = Cre (Kc (fun k => Cmul (iomega N k) (iomega N k)) N n m).
Proof.
  intros Ho. destruct (odd_half N Ho) as [HN _].
  rewrite <- (Kc_compose (iomega N) (iomega N) N n m HN), Cre_sum.
  apply Rsum_ext. intros l _.
  rewrite !Kc_iomega_RtoC by assumption. Calg. ring.
Qed.

(** ** The two differentiation paths compared *)

Lemma inverse2_formula_kernel (mult : nat -> nat -> C) (a b : nat -> C)
    (N : nat) (psi : list (list R)) (r c : nat) :
  rect N N psi -> (1 <= N)%nat ->
  (forall u v, mult u v = Cmul (a u) (b v)) ->
  inverse2_formula mult psi r c
  = Cre (Csum (fun r' => Csum (fun c' =>
      Cmul (RtoC (get psi r' c')) (Cmul (Kc a N r r') (Kc b N c c'))) N) N).
Proof.
  intros Hpsi HN Hmult. unfold inverse2_formula, psi_hat_formula.
  rewrite (rect_nrows N N psi Hpsi).
  rewrite <- (inverse2_kernel a b (get psi) N r c HN).
  do 2 f_equal. apply Csum_ext. intros u _. apply Csum_ext. intros v _.
  now rewrite Hmult.
Qed.

Lemma second_derivative_sum (N : nat) (x : nat -> R) (n : nat) :
  Nat.odd N = true ->
  Rsum (fun j => Rsum (fun j' => x j' * Dk N j j') N * Dk N n j) N
  = Rsum (fun j' =>
      x j' * Cre (Kc (fun k => Cmul (iomega N k) (iomega N k)) N n j')) N.
Proof.
  intros Ho.
  rewrite (Rsum_ext _ (fun j => Rsum (fun j' =>
    x j' * Dk N j j' * Dk N n j) N)) by (intros; apply Rsum_mul_r).
  rewrite Rsum_swap. apply Rsum_ext. intros j' _.
  rewrite <- Dk_compose by assumption. rewrite Rsum_mul_l.
  apply Rsum_ext. intros j _. ring.
Qed.

Lemma psi_xx_entry (N : nat) (psi : list (list R)) (r c : nat) :
  rect N N psi -> (1 <= N)%nat -> (r < N)%nat ->
  psi_xx_formula psi r c
  = Rsum (fun c' =>
      get psi r c'
      * Cre (Kc (fun k => Cmul (iomega N k) (iomega N k)) N c c')) N.
Proof.
  intros Hpsi HN Hr.
  unfold psi_xx_formula. rewrite (rect_nrows N N psi Hpsi).
  rewrite (inverse2_formula_kernel _ (fun _ => C1)
             (fun v => Cmul (iomega N v) (iomega N v)) N psi r c Hpsi HN)
    by (intros; unfold ikx; ring).
  rewrite (Csum_ext _ (fun r' =>
    if (r' =? r)%nat
    then Csum (fun c' =>
           Cmul (RtoC (get psi r' c'))
                (Kc (fun v => Cmul (iomega N v) (iomega N v)) N c c')) N
    else C0)).
  - rewrite Csum_delta by assumption. rewrite Cre_sum.
    apply Rsum_ext. intros c' _. apply Cre_scale.
  - intros r' Hr'. rewrite Kc_one by assumption.
    destruct (r' =? r)%nat.
    + apply Csum_ext. intros c' _. ring.
    + rewrite (Csum_ext _ (fun _ => C0)) by (intros; ring).
      apply Csum_zero.
Qed.

Lemma psi_yy_entry (N : nat) (psi : list (list R)) (r c : nat) :
  rect N N psi -> (1 <= N)%nat -> (c < N)%nat ->
  psi_yy_formula psi r c
  = Rsum (fun r' =>
      get psi r' c
      * Cre (Kc (fun k => Cmul (iomega N k) (iomega N k)) N r r')) N.
Proof.
  intros Hpsi HN Hc.
  unfold psi_yy_formula. rewrite (rect_nrows N N psi Hpsi).
  rewrite (inverse2_formula_kernel _
             (fun u => Cmul (iomega N u) (iomega N u)) (fun _ => C1)
             N psi r c Hpsi HN)
    by (intros; unfold iky; ring).
  rewrite Cre_sum. apply Rsum_ext. intros r' _.
  rewrite (Csum_ext _ (fun c' =>
    if (c' =? c)%nat
    then Cmul (RtoC (get psi r' c'))
              (Kc (fun u => Cmul (iomega N u) (iomega N u)) N r r')
    else C0)).
  - rewrite Csum_delta by assumption. apply Cre_scale.
  - intros c' Hc'. rewrite Kc_one by assumption.
    destruct (c' =? c)%nat; ring.
Qed.

Lemma psi_xy_entry (N : nat) (psi : list (list R)) (r c : nat) :
  rect N N psi -> Nat.odd N = true ->
  psi_xy_formula psi r c
  = Rsum (fun r' => Rsum (fun c' =>
      get psi r' c' * Dk N r r' * Dk N c c') N) N.
Proof.
  intros Hpsi Ho. destruct (odd_half N Ho) as [HN _].
  unfold psi_xy_formula. rewrite (rect_nrows N N psi Hpsi).
  rewrite (inverse2_formula_kernel _ (iomega N) (iomega N) N psi r c Hpsi HN)
    by (intros; unfold ikx, iky; ring).
  rewrite Cre_sum. apply Rsum_ext. intros r' _.
  rewrite Cre_sum. apply Rsum_ext. intros c' _.
  rewrite !Kc_iomega_RtoC by assumption. Calg. ring.
Qed.

(** C1, as the code has it.  For a square field whose side [N] is odd, the
    three second partials computed inside [getOkuboWeiss] by the single
    two-dimensional transform are exactly the composed slice operators:
    [psi_xx = ddx(ddx(psi))], [psi_yy = ddy(ddy(psi))] and
    [psi_xy = ddx(ddy(psi))]. *)
Theorem okubo_partials_agree_odd (N : nat) (psi : list (list R)) :
  rect N N psi -> Nat.odd N = true ->
  exists psi_xy psi_xx psi_yy,
    okubo_partials psi = Ok (psi_xy, psi_xx, psi_yy) /\
    (d <- ddx psi ;; ddx d) = Ok psi_xx /\
    (d <- ddy psi ;; ddy d) = Ok psi_yy /\
    (d <- ddy psi ;; ddx d) = Ok psi_xy.
Proof.
  intros Hpsi Ho. destruct (odd_half N Ho) as [HN _].
  assert (Ex : ddx psi
    = Ok (tabulate N N (fun r c => Rsum (fun j => get psi r j * Dk N c j) N))).
  { rewrite (field_tabulate N N psi Hpsi) at 1. now apply ddx_tabulate. }
  assert (Ey : ddy psi
    = Ok (tabulate N N (fun r c => Rsum (fun l => get psi l c * Dk N r l) N))).
  { rewrite (field_tabulate N N psi Hpsi) at 1. now apply ddy_tabulate. }
  exists (tabulate N N (psi_xy_formula psi)),
         (tabulate N N (psi_xx_formula psi)),
         (tabulate N N (psi_yy_formula psi)).
  split; [now apply okubo_partials_table|]. split; [|split].
  - rewrite Ex. cbn [bind]. rewrite ddx_tabulate by assumption. f_equal.
    apply tabulate_ext. intros r c Hr Hc.
    rewrite (psi_xx_entry N psi r c Hpsi HN Hr).
    apply (second_derivative_sum N (get psi r) c Ho).
  - rewrite Ey. cbn [bind]. rewrite ddy_tabulate by assumption. f_equal.
    apply tabulate_ext. intros r c Hr Hc.
    rewrite (psi_yy_entry N psi r c Hpsi HN Hc).
    apply (second_derivative_sum N (fun l => get psi l c) r Ho).
  - rewrite Ey. cbn [bind]. rewrite ddx_tabulate by assumption. f_equal.
    apply tabulate_ext. intros r c Hr Hc.
    rewrite (psi_xy_entry N psi r c Hpsi Ho).
    rewrite (Rsum_ext _ (fun j => Rsum (fun l =>
      get psi l j * Dk N r l * Dk N c j) N)) by (intros; apply Rsum_mul_r).
    apply Rsum_swap.
Qed.

Lemma okubo_partials_agree_odd_witness :
  exists psi_xy psi_xx psi_yy,
    okubo_partials [[1; 2; 3]; [4; 5; 6]; [7; 8; 10]]
    = Ok (psi_xy, psi_xx, psi_yy) /\
    (d <- ddx [[1; 2; 3]; [4; 5; 6]; [7; 8; 10]] ;; ddx d) = Ok psi_xx /\
    (d <- ddy [[1; 2; 3]; [4; 5; 6]; [7; 8; 10]] ;; ddy d) = Ok psi_yy /\
    (d <- ddy [[1; 2; 3]; [4; 5; 6]; [7; 8; 10]] ;; ddx d) = Ok psi_xy.
Proof.
  apply (okubo_partials_agree_odd 3 [[1; 2; 3]; [4; 5; 6]; [7; 8; 10]]).
  - split; [reflexivity | repeat constructor].
  - reflexivity.
Defined.

(** ** Side two: the Nyquist mode *)

Lemma Cexp_half (a b : nat) :
  (a < 2)%nat -> (b < 2)%nat ->
  Cexp (2 * PI * INR a * INR b / INR 2)
  = RtoC (if (a * b =? 1)%nat then -1 else 1).
Proof.
  intros Ha Hb.
  destruct a as [|[|a]], b as [|[|b]]; try lia; simpl;
    unfold Cexp, RtoC.
  - replace (2 * PI * 0 * 0 / (1 + 1)) with 0 by field.
    now rewrite cos_0, sin_0.
  - replace (2 * PI * 0 * 1 / (1 + 1)) with 0 by field.
    now rewrite cos_0, sin_0.
  - replace (2 * PI * 1 * 0 / (1 + 1)) with 0 by field.
    now rewrite cos_0, sin_0.
  - replace (2 * PI * 1 * 1 / (1 + 1)) with PI by field.
    now rewrite cos_PI, sin_PI.
Qed.

Lemma Cexp_half_neg (a b : nat) :
  (a < 2)%nat -> (b < 2)%nat ->
  Cexp (- (2 * PI * INR a * INR b / INR 2))
  = RtoC (if (a * b =? 1)%nat then -1 else 1).
Proof.
  intros Ha Hb. rewrite Cexp_neg, Cexp_half by assumption.
  unfold Cconj, RtoC. simpl. f_equal. ring.
Qed.

(** On sequences of length two [spectralDeriv] is the zero map: the only
    mode besides the mean is the Nyquist mode, whose derivative is purely
    imaginary and is dropped by [np.real]. *)
Lemma Dk_side_two (n m : nat) : (n < 2)%nat -> (m < 2)%nat -> Dk 2 n m = 0.
Proof.
  intros Hn Hm. unfold Dk, Kc. cbn [Csum].
  rewrite !Cexp_half, !Cexp_half_neg by lia.
  unfold iomega, omega, mode.
  unfold Cre, Cmul, Cadd, RtoC, C0, Ci. simpl. field.
Qed.

(** The two-dimensional path keeps that mode: its multiplier [(i omega)^2]
    is the real number [- pi^2]. *)
Lemma Kxx_side_two (m : nat) :
  (m < 2)%nat ->
  Cre (Kc (fun k => Cmul (iomega 2 k) (iomega 2 k)) 2 0 m)
  = if (m =? 0)%nat then - (PI * PI) / 2 else PI * PI / 2.
Proof.
  intros Hm. unfold Kc. cbn [Csum].
  rewrite !Cexp_half, !Cexp_half_neg by lia.
  unfold iomega, omega, mode.
  unfold Cre, Cmul, Cadd, RtoC, C0, Ci.
  destruct m as [|[|m]]; [| |lia]; simpl; field.
Qed.

Lemma psi_xx_side_two :
  psi_xx_formula [[1; -1]; [1; -1]] 0 0 = - (PI * PI).
Proof.
  rewrite (psi_xx_entry 2 _ 0 0); [| |lia|lia].
  - cbn [Rsum]. rewrite !Kxx_side_two by lia.
    unfold get. simpl. field.
  - split; [reflexivity | repeat constructor].
Qed.

(** C1 as stated fails for an even side: on the field [[1, -1], [1, -1]]
    the entry [(0, 0)] of [psi_xx] inside [getOkuboWeiss] is [- pi^2], while
    [ddx(ddx(psi))] is zero there. *)
Lemma okubo_partials_disagree_even :
  exists psi_xy psi_xx psi_yy dxx,
    okubo_partials [[1; -1]; [1; -1]] = Ok (psi_xy, psi_xx, psi_yy) /\
    (d <- ddx [[1; -1]; [1; -1]] ;; ddx d) = Ok dxx /\
    get psi_xx 0 0 = - (PI * PI) /\
    get dxx 0 0 = 0 /\
    psi_xx <> dxx.
Proof.
  assert (Hpsi : rect 2 2 [[1; -1]; [1; -1]])
    by (split; [reflexivity | repeat constructor]).
  assert (Ex : (d <- ddx [[1; -1]; [1; -1]] ;; ddx d)
    = Ok (tabulate 2 2 (fun r c =>
        Rsum (fun j =>
          Rsum (fun j' => get [[1; -1]; [1; -1]] r j' * Dk 2 j j') 2
          * Dk 2 c j) 2))).
  { rewrite (field_tabulate 2 2 _ Hpsi) at 1.
    rewrite ddx_tabulate by lia. cbn [bind]. apply ddx_tabulate; lia. }
  assert (Ea : get (tabulate 2 2 (psi_xx_formula [[1; -1]; [1; -1]])) 0 0
               = - (PI * PI)).
  { rewrite <- psi_xx_side_two.
    apply (get_table 2 2 (psi_xx_formula [[1; -1]; [1; -1]])); lia. }
  assert (Eb : get (tabulate 2 2 (fun r c =>
        Rsum (fun j =>
          Rsum (fun j' => get [[1; -1]; [1; -1]] r j' * Dk 2 j j') 2
          * Dk 2 c j) 2)) 0 0 = 0).
  { etransitivity.
    - apply (get_table 2 2 (fun r c =>
        Rsum (fun j =>
          Rsum (fun j' => get [[1; -1]; [1; -1]] r j' * Dk 2 j j') 2
          * Dk 2 c j) 2)); lia.
    - rewrite (Rsum_ext _ (fun _ => 0)); [apply Rsum_zero|].
      intros j Hj. rewrite (Dk_side_two 0 j) by lia. ring. }
  do 4 eexists. split; [apply (okubo_partials_table 2); [exact Hpsi | lia]|].
  split; [exact Ex|]. split; [exact Ea|]. split; [exact Eb|].
  intros E. rewrite E, Eb in Ea.
  pose proof PI_RGT_0 as Hpi. nra.
Qed.

(** * Further properties of the code *)

(** ** [spectralDeriv] on Fourier modes *)

(** A sampled complex exponential is an eigenvector of every filter. *)
Lemma kernel_mode (g : nat -> C) (N n j : nat) :
  (j < N)%nat ->
  Csum (fun m => Cmul (Cexp (2 * PI * INR j * INR m / INR N)) (Kc g N n m)) N
  = Cmul (g j) (Cexp (2 * PI * INR j * INR n / INR N)).
Proof.
  intros Hj. assert (HN : (1 <= N)%nat) by lia. unfold Kc.
  rewrite (Csum_ext _ (fun m => Cmul (RtoC (1 / INR N))
    (Csum (fun k =>
       Cmul (Cmul (g k) (Cexp (2 * PI * INR k * INR n / INR N)))
            (Cmul (Cexp (- (2 * PI * INR k * INR m / INR N)))
                  (Cexp (2 * PI * INR j * INR m / INR N)))) N))).
  2:{ intros m _.
      assert (A : forall e s S, Cmul e (Cmul s S) = Cmul s (Cmul e S))
        by (intros; ring).
      rewrite A. f_equal. rewrite Csum_mul_l.
      apply Csum_ext. intros k _. ring. }
  rewrite <- Csum_mul_l, Csum_swap.
  rewrite (Csum_ext _ (fun k =>
    if (k =? j)%nat
    then Cmul (Cmul (g k) (Cexp (2 * PI * INR k * INR n / INR N)))
              (RtoC (INR N))
    else C0)).
  2:{ intros k Hk. rewrite <- Csum_mul_l, modes_orthogonal by assumption.
      destruct (k =? j)%nat; [reflexivity | ring]. }
  rewrite Csum_delta by assumption.
  transitivity (Cmul (Cmul (RtoC (1 / INR N)) (RtoC (INR N)))
                  (Cmul (g j) (Cexp (2 * PI * INR j * INR n / INR N))));
    [ring|].
  rewrite scale_unit by assumption. ring.
Qed.

Lemma angle_zero (x y : R) : 2 * PI * INR 0 * x / y = 0.
Proof. simpl. unfold Rdiv. ring. Qed.

(** The responses to one impulse add up to the multiplier of the mean. *)
Lemma kernel_column_sum (g : nat -> C) (N m : nat) :
  (1 <= N)%nat -> Csum (fun n => Kc g N n m) N = g 0%nat.
Proof.
  intros HN. unfold Kc. rewrite <- Csum_mul_l, Csum_swap.
  rewrite (Csum_ext _ (fun k =>
    if (k =? 0)%nat
    then Cmul (Cmul (g k) (Cexp (- (2 * PI * INR k * INR m / INR N))))
              (RtoC (INR N))
    else C0)).
  2:{ intros k Hk. rewrite <- Csum_mul_l.
      rewrite (Csum_ext _ (fun n =>
        Cmul (Cexp (- (2 * PI * INR 0 * INR n / INR N)))
             (Cexp (2 * PI * INR k * INR n / INR N)))).
      - rewrite modes_orthogonal by lia. rewrite (Nat.eqb_sym k 0).
        destruct (0 =? k)%nat; [reflexivity | ring].
      - intros n _. rewrite angle_zero, Ropp_0, Cexp_0. ring. }
  rewrite Csum_delta by lia.
  rewrite angle_zero, Ropp_0, Cexp_0.
  transitivity (Cmul (Cmul (RtoC (1 / INR N)) (RtoC (INR N))) (g 0%nat));
    [ring|].
  rewrite scale_unit by assumption. ring.
Qed.

Lemma deriv_formula_kernel (x : list R) (n : nat) :
  deriv_formula x n
  = Cre (Csum (fun m =>
      Cmul (RtoC (nth m x 0)) (Kc (iomega (length x)) (length x) n m))
      (length x)).
Proof.
  unfold deriv_formula.
  now rewrite (filter_kernel (iomega (length x)) (fun m => nth m x 0)).
Qed.

Lemma spectralDeriv_tabulated (N : nat) (X : nat -> R) :
  (1 <= N)%nat ->
  spectralDeriv (map X (seq 0 N))
  = Ok (map (fun n => Rsum (fun m => X m * Dk N n m) N) (seq 0 N)).
Proof.
  intros HN. rewrite spectralDeriv_ok by (now rewrite length_map_seq).
  f_equal. apply deriv_table_tabulated.
Qed.

Lemma Dk_row_sum (N n : nat) : (1 <= N)%nat -> Rsum (Dk N n) N = 0.
Proof.
  intros HN. unfold Dk. rewrite <- Cre_sum.
  rewrite (Csum_ext _ (fun m =>
    Cmul (Cexp (2 * PI * INR 0 * INR m / INR N)) (Kc (iomega N) N n m)))
    by (intros; rewrite angle_zero, Cexp_0; ring).
  rewrite kernel_mode by lia.
  unfold iomega. rewrite omega_zero, angle_zero, Cexp_0. Calg.
Qed.

Lemma Dk_column_sum (N m : nat) :
  (1 <= N)%nat -> Rsum (fun n => Dk N n m) N = 0.
Proof.
  intros HN. unfold Dk. rewrite <- Cre_sum, kernel_column_sum by assumption.
  unfold iomega. rewrite omega_zero. Calg.
Qed.

Lemma RtoC_cos (t : R) :
  RtoC (cos t) = Cmul (RtoC (1 / 2)) (Cadd (Cexp t) (Cexp (- t))).
Proof.
  unfold RtoC, Cmul, Cadd, Cexp. simpl. rewrite cos_neg, sin_neg.
  f_equal; field.
Qed.

Lemma RtoC_sin (t : R) :
  RtoC (sin t) = Cmul (0, - (1 / 2)) (Cadd (Cexp t) (Copp (Cexp (- t)))).
Proof.
  unfold RtoC, Cmul, Cadd, Copp, Cexp. simpl. rewrite cos_neg, sin_neg.
  f_equal; field.
Qed.

Lemma angle_reflect (N j m : nat) :
  (1 <= N)%nat -> (j <= N)%nat ->
  Cexp (2 * PI * INR (N - j) * INR m / INR N)
  = Cexp (- (2 * PI * INR j * INR m / INR N)).
Proof.
  intros HN Hj. pose proof (INR_pos N HN).
  rewrite minus_INR by assumption.
  replace (2 * PI * (INR N - INR j) * INR m / INR N)
    with (- (2 * PI * INR j * INR m / INR N) + 2 * PI * INR m)
    by (field; lra).
  apply Cexp_shift.
Qed.

Lemma Rsum_Dk_complex (N n : nat) (X : nat -> R) :
  Rsum (fun m => X m * Dk N n m) N
  = Cre (Csum (fun m => Cmul (RtoC (X m)) (Kc (iomega N) N n m)) N).
Proof.
  rewrite Cre_sum. apply Rsum_ext. intros m _.
  unfold Dk. now rewrite Cre_scale.
Qed.

(** The response to a sampled cosine and to a sampled sine of mode [j]. *)
Lemma cosine_response (N j n : nat) :
  (1 <= j < N)%nat ->
  Rsum (fun m => cos (2 * PI * INR j * INR m / INR N) * Dk N n m) N
  = (omega N (N - j) - omega N j) / 2
    * sin (2 * PI * INR j * INR n / INR N).
Proof.
  intros Hj. assert (HN : (1 <= N)%nat) by lia.
  rewrite Rsum_Dk_complex.
  rewrite (Csum_ext _ (fun m =>
    Cmul (RtoC (1 / 2))
      (Cadd (Cmul (Cexp (2 * PI * INR j * INR m / INR N))
                  (Kc (iomega N) N n m))
            (Cmul (Cexp (2 * PI * INR (N - j) * INR m / INR N))
                  (Kc (iomega N) N n m))))).
  2:{ intros m _. rewrite RtoC_cos, angle_reflect by lia. ring. }
  rewrite <- Csum_mul_l, Csum_add, !kernel_mode by lia.
  rewrite angle_reflect by lia.
  unfold iomega, Cre, Cmul, Cadd, RtoC, Ci, Cexp. simpl.
  rewrite cos_neg, sin_neg. field.
Qed.

Lemma sine_response (N j n : nat) :
  (1 <= j < N)%nat ->
  Rsum (fun m => sin (2 * PI * INR j * INR m / INR N) * Dk N n m) N
  = (omega N j - omega N (N - j)) / 2
    * cos (2 * PI * INR j * INR n / INR N).
Proof.
  intros Hj. assert (HN : (1 <= N)%nat) by lia.
  rewrite Rsum_Dk_complex.
  rewrite (Csum_ext _ (fun m =>
    Cmul (0, - (1 / 2))
      (Cadd (Cmul (Cexp (2 * PI * INR j * INR m / INR N))
                  (Kc (iomega N) N n m))
            (Copp (Cmul (Cexp (2 * PI * INR (N - j) * INR m / INR N))
                        (Kc (iomega N) N n m)))))).
  2:{ intros m _. rewrite RtoC_sin, angle_reflect by lia. ring. }
  rewrite <- Csum_mul_l, Csum_add.
  rewrite (Csum_ext (fun m => Copp _)
    (fun m => Cmul (Copp C1)
       (Cmul (Cexp (2 * PI * INR (N - j) * INR m / INR N))
             (Kc (iomega N) N n m)))) by (intros; ring).
  rewrite <- Csum_mul_l, !kernel_mode by lia.
  rewrite angle_reflect by lia.
  unfold iomega, Cre, Cmul, Cadd, Copp, RtoC, Ci, C1, Cexp. simpl.
  rewrite cos_neg, sin_neg. field.
Qed.

Lemma omega_resolved (N j : nat) :
  (1 <= j)%nat -> (j <= (N - 1) / 2)%nat ->
  (1 <= j < N)%nat /\
  omega N j = 2 * PI * INR j / INR N /\
  omega N (N - j) = - (2 * PI * INR j / INR N).
Proof.
  intros H1 Hj.
  pose proof (Nat.Div0.mul_div_le (N - 1) 2) as Hh.
  set (h := ((N - 1) / 2)%nat) in *.
  split; [lia|]. unfold omega. split.
  - rewrite mode_lower by (fold h; lia). now rewrite <- INR_IZR_INZ.
  - rewrite mode_upper by (fold h; lia).
    replace (Z.of_nat (N - j) - Z.of_nat N)%Z with (- Z.of_nat j)%Z by lia.
    rewrite opp_IZR, <- INR_IZR_INZ. unfold Rdiv. ring.
Qed.

(** X1.  [spectralDeriv] is linear: on two sequences of one length [N >= 1],
    [spectralDeriv(a x + b y) = a spectralDeriv(x) + b spectralDeriv(y)]. *)
Theorem spectralDeriv_linear (a b : R) (x y : list R) :
  (1 <= length x)%nat -> length y = length x ->
  exists dx dy,
    spectralDeriv x = Ok dx /\ spectralDeriv y = Ok dy /\
    spectralDeriv (zipWith (fun u v => a * u + b * v) x y)
    = Ok (zipWith (fun u v => a * u + b * v) dx dy).
Proof.
  intros Hx Hy. set (N := length x) in *.
  rewrite (table_of_list x 0), (table_of_list y 0). fold N. rewrite Hy.
  rewrite zipWith_tables.
  rewrite !spectralDeriv_tabulated by assumption.
  do 2 eexists. split; [reflexivity|]. split; [reflexivity|].
  rewrite zipWith_tables. f_equal. apply map_seq_ext. intros n _.
  rewrite !Rsum_mul_l, <- Rsum_add. apply Rsum_ext. intros m _. ring.
Qed.

Lemma spectralDeriv_linear_witness :
  exists dx dy,
    spectralDeriv [1; 2; 4] = Ok dx /\ spectralDeriv [0; 5; 1] = Ok dy /\
    spectralDeriv (zipWith (fun u v => 2 * u + 3 * v) [1; 2; 4] [0; 5; 1])
    = Ok (zipWith (fun u v => 2 * u + 3 * v) dx dy).
Proof.
  apply (spectralDeriv_linear 2 3 [1; 2; 4] [0; 5; 1]);
    [simpl; lia | reflexivity].
Defined.

Lemma repeat_table {T : Type} (v : T) (n : nat) :
  repeat v n = map (fun _ => v) (seq 0 n).
Proof.
  generalize 0%nat. induction n as [|n IH]; intros s; simpl;
    [reflexivity | now rewrite <- IH].
Qed.

(** X2.  The derivative of a constant sequence of length [N >= 1] is the
    zero sequence. *)
Theorem spectralDeriv_constant (N : nat) (v : R) :
  (1 <= N)%nat -> spectralDeriv (repeat v N) = Ok (repeat 0 N).
Proof.
  intros HN. rewrite !repeat_table.
  rewrite spectralDeriv_tabulated by assumption. f_equal.
  apply map_seq_ext. intros n _.
  rewrite <- Rsum_mul_l, Dk_row_sum by assumption. ring.
Qed.

Lemma spectralDeriv_constant_witness :
  spectralDeriv (repeat 7 4) = Ok (repeat 0 4).
Proof. apply (spectralDeriv_constant 4 7). lia. Defined.

Lemma vsum_table (F : nat -> R) (n : nat) :
  vsum (map F (seq 0 n)) = Rsum F n.
Proof.
  induction n as [|n IH]; [reflexivity|].
  rewrite seq_S, map_app. cbn [Rsum]. rewrite <- IH.
  unfold vsum. rewrite fold_right_app. cbn [map fold_right Nat.add].
  generalize (map F (seq 0 n)). intros l.
  induction l as [|u l IHl]; simpl; [ring | rewrite IHl; ring].
Qed.

(** X3.  The samples of a spectral derivative add up to zero, whatever the
    input of length [N >= 1]. *)
Theorem spectralDeriv_zero_mean (x : list R) :
  (1 <= length x)%nat ->
  exists dx, spectralDeriv x = Ok dx /\ vsum dx = 0.
Proof.
  intros Hx. set (N := length x) in *.
  rewrite (table_of_list x 0). fold N.
  rewrite spectralDeriv_tabulated by assumption.
  eexists. split; [reflexivity|].
  rewrite vsum_table, Rsum_swap.
  rewrite (Rsum_ext _ (fun _ => 0)); [apply Rsum_zero|].
  intros m _. rewrite <- Rsum_mul_l, Dk_column_sum by assumption. ring.
Qed.

Lemma spectralDeriv_zero_mean_witness :
  exists dx, spectralDeriv [3; 1; 4; 1; 5] = Ok dx /\ vsum dx = 0.
Proof. apply (spectralDeriv_zero_mean [3; 1; 4; 1; 5]). simpl. lia. Defined.

(** X4.  [spectralDeriv] is exact on a resolved cosine: for a mode
    [1 <= j <= (N-1)/2], the samples [cos(2 pi j m / N)] are sent to
    [-(2 pi j / N) sin(2 pi j n / N)]. *)
Theorem spectralDeriv_cosine_mode (N j : nat) :
  (1 <= j)%nat -> (j <= (N - 1) / 2)%nat ->
  spectralDeriv
    (map (fun m => cos (2 * PI * INR j * INR m / INR N)) (seq 0 N))
  = Ok (map (fun n => - (2 * PI * INR j / INR N)
                      * sin (2 * PI * INR j * INR n / INR N)) (seq 0 N)).
Proof.
  intros H1 Hj. destruct (omega_resolved N j H1 Hj) as (Hr & E1 & E2).
  rewrite spectralDeriv_tabulated by lia. f_equal.
  apply map_seq_ext. intros n _.
  rewrite cosine_response, E1, E2 by assumption. field.
  apply not_0_INR. lia.
Qed.

Lemma spectralDeriv_cosine_mode_witness :
  spectralDeriv
    (map (fun m => cos (2 * PI * INR 2 * INR m / INR 5)) (seq 0 5))
  = Ok (map (fun n => - (2 * PI * INR 2 / INR 5)
                      * sin (2 * PI * INR 2 * INR n / INR 5)) (seq 0 5)).
Proof. apply (spectralDeriv_cosine_mode 5 2); [lia | reflexivity]. Defined.

(** X5.  Likewise on a resolved sine: [sin(2 pi j m / N)] is sent to
    [(2 pi j / N) cos(2 pi j n / N)]. *)
Theorem spectralDeriv_sine_mode (N j : nat) :
  (1 <= j)%nat -> (j <= (N - 1) / 2)%nat ->
  spectralDeriv
    (map (fun m => sin (2 * PI * INR j * INR m / INR N)) (seq 0 N))
  = Ok (map (fun n => 2 * PI * INR j / INR N
                      * cos (2 * PI * INR j * INR n / INR N)) (seq 0 N)).
Proof.
  intros H1 Hj. destruct (omega_resolved N j H1 Hj) as (Hr & E1 & E2).
  rewrite spectralDeriv_tabulated by lia. f_equal.
  apply map_seq_ext. intros n _.
  rewrite sine_response, E1, E2 by assumption. field.
  apply not_0_INR. lia.
Qed.

Lemma spectralDeriv_sine_mode_witness :
  spectralDeriv
    (map (fun m => sin (2 * PI * INR 1 * INR m / INR 4)) (seq 0 4))
  = Ok (map (fun n => 2 * PI * INR 1 / INR 4
                      * cos (2 * PI * INR 1 * INR n / INR 4)) (seq 0 4)).
Proof. apply (spectralDeriv_sine_mode 4 1); [lia | reflexivity]. Defined.

(** X6.  For an even length [N = 2 h >= 2] the Nyquist mode, the alternating
    samples [cos(pi m) = +1, -1, +1, ...], is sent to the zero sequence. *)
Theorem spectralDeriv_nyquist (h : nat) :
  (1 <= h)%nat ->
  spectralDeriv (map (fun m => cos (PI * INR m)) (seq 0 (2 * h)))
  = Ok (repeat 0 (2 * h)).
Proof.
  intros Hh. assert (Hpos : 0 < INR h) by (apply INR_pos; lia).
  assert (E2 : INR (2 * h) = 2 * INR h) by (rewrite mult_INR; simpl; ring).
  rewrite repeat_table, spectralDeriv_tabulated by lia. f_equal.
  apply map_seq_ext. intros n _.
  rewrite (Rsum_ext _ (fun m =>
    cos (2 * PI * INR h * INR m / INR (2 * h)) * Dk (2 * h) n m)).
  - rewrite cosine_response by lia.
    replace (2 * h - h)%nat with h by lia. unfold Rdiv. ring.
  - intros m _. do 2 f_equal. rewrite E2. field. lra.
Qed.

Lemma spectralDeriv_nyquist_witness :
  spectralDeriv (map (fun m => cos (PI * INR m)) (seq 0 (2 * 3)))
  = Ok (repeat 0 (2 * 3)).
Proof. apply (spectralDeriv_nyquist 3). lia. Defined.

(** ** Degenerate shapes *)

(** X7.  Neither [ddx] nor [ddy] handles a degenerate shape: on a field
    without rows [ddx] fails on [array[0]] with [IndexError]; on a field of
    shape [(N, 0)], [N >= 1], [ddx] fails inside [spectralDeriv] with
    [ZeroDivisionError] and [ddy], whose transpose has no rows, with
    [IndexError]. *)
Theorem ddx_ddy_degenerate (N : nat) (f : list (list R)) :
  rect N 0 f -> (1 <= N)%nat ->
  ddx [] = Raise IndexError /\
  ddx f = Raise ZeroDivisionError /\
  ddy f = Raise IndexError.
Proof.
  intros Hf HN. split; [reflexivity|]. split.
  - destruct Hf as [Hl Hr]. destruct f as [|row rest]; simpl in Hl; [lia|].
    inversion Hr as [|? ? H0 _]; subst.
    apply length_zero_iff_nil in H0. subst row. reflexivity.
  - unfold ddy, transpose. now rewrite (rect_ncols N 0 f Hf HN).
Qed.

Lemma ddx_ddy_degenerate_witness :
  ddx [] = Raise IndexError /\
  ddx [[]; []] = Raise ZeroDivisionError /\
  ddy [[]; []] = Raise IndexError.
Proof.
  apply (ddx_ddy_degenerate 2 [[]; []]); [|lia].
  split; [reflexivity | repeat constructor].
Defined.

(** ** Compositions of the derivative operators *)

Lemma get_tabulate (n m : nat) (F : nat -> nat -> R) (r c : nat) :
  (r < n)%nat -> (c < m)%nat -> get (tabulate n m F) r c = F r c.
Proof. apply get_table. Qed.

Lemma mixed_partials_commute_rect (N M : nat) (F : nat -> nat -> R)
    (r c : nat) :
  Rsum (fun j => Rsum (fun l => F l j * Dk N r l) N * Dk M c j) M
  = Rsum (fun l => Rsum (fun j => F l j * Dk M c j) M * Dk N r l) N.
Proof.
  rewrite (Rsum_ext _ (fun j => Rsum (fun l => F l j * Dk N r l * Dk M c j) N))
    by (intros; apply Rsum_mul_r).
  rewrite Rsum_swap. apply Rsum_ext. intros l _.
  rewrite Rsum_mul_r. apply Rsum_ext. intros j _. ring.
Qed.

(** X8.  The curl of a gradient vanishes: for [vx = ddx(phi)] and
    [vy = ddy(phi)] on a field of shape [(N, M)], [N, M >= 1],
    [getVorticity(vx, vy)] is the zero field. *)
Theorem curl_of_gradient (N M : nat) (phi : list (list R)) :
  rect N M phi -> (1 <= N)%nat -> (1 <= M)%nat ->
  exists vx vy w,
    ddx phi = Ok vx /\ ddy phi = Ok vy /\
    getVorticity vx vy = Ok w /\ rect N M w /\
    forall r c, (r < N)%nat -> (c < M)%nat -> get w r c = 0.
Proof.
  intros Hphi HN HM. rewrite (field_tabulate N M phi Hphi).
  generalize (get phi). intros F.
  do 3 eexists.
  split; [now apply ddx_tabulate|]. split; [now apply ddy_tabulate|].
  split; [|split].
  - unfold getVorticity.
    rewrite ddx_tabulate by assumption. cbn [bind].
    rewrite ddy_tabulate by assumption. cbn [bind].
    apply (broadcast2_tabulate Rminus).
  - apply rect_tabulate.
  - intros r c Hr Hc.
    rewrite get_tabulate by assumption.
    rewrite mixed_partials_commute_rect. ring.
Qed.

Lemma curl_of_gradient_witness :
  exists vx vy w,
    ddx [[1; 2; 0]; [3; 4; 1]] = Ok vx /\ ddy [[1; 2; 0]; [3; 4; 1]] = Ok vy /\
    getVorticity vx vy = Ok w /\ rect 2 3 w /\
    forall r c, (r < 2)%nat -> (c < 3)%nat -> get w r c = 0.
Proof.
  apply (curl_of_gradient 2 3 [[1; 2; 0]; [3; 4; 1]]); try lia.
  split; [reflexivity | repeat constructor].
Defined.

(** X9.  The vorticity of the velocity derived from a stream function,
    [vx = ddy(psi)], [vy = -ddx(psi)], is minus the sum of the two composed
    second derivatives: [getVorticity(vx, vy) = -(ddx(ddx(psi)) +
    ddy(ddy(psi)))]. *)
Theorem vorticity_of_stream_function (N M : nat) (psi : list (list R)) :
  rect N M psi -> (1 <= N)%nat -> (1 <= M)%nat ->
  exists vx dpsi dxx dyy w,
    ddy psi = Ok vx /\ ddx psi = Ok dpsi /\
    ddx dpsi = Ok dxx /\ ddy vx = Ok dyy /\
    getVorticity vx (map (map Ropp) dpsi) = Ok w /\ rect N M w /\
    forall r c, (r < N)%nat -> (c < M)%nat ->
      get w r c = - (get dxx r c + get dyy r c).
Proof.
  intros Hpsi HN HM. rewrite (field_tabulate N M psi Hpsi).
  generalize (get psi). intros F.
  do 5 eexists.
  split; [now apply ddy_tabulate|]. split; [now apply ddx_tabulate|].
  split; [now apply ddx_tabulate|]. split; [now apply ddy_tabulate|].
  split; [|split].
  - unfold getVorticity. rewrite map_map_tabulate.
    rewrite ddx_tabulate by assumption. cbn [bind].
    rewrite ddy_tabulate by assumption. cbn [bind].
    apply (broadcast2_tabulate Rminus).
  - apply rect_tabulate.
  - intros r c Hr Hc.
    rewrite !get_tabulate by assumption.
    rewrite (Rsum_ext _ (fun j =>
      - (Rsum (fun j0 => F r j0 * Dk M j j0) M * Dk M c j)))
      by (intros; ring).
    rewrite <- Rsum_opp. ring.
Qed.

Lemma vorticity_of_stream_function_witness :
  exists vx dpsi dxx dyy w,
    ddy [[1; 2]; [3; 5]] = Ok vx /\ ddx [[1; 2]; [3; 5]] = Ok dpsi /\
    ddx dpsi = Ok dxx /\ ddy vx = Ok dyy /\
    getVorticity vx (map (map Ropp) dpsi) = Ok w /\ rect 2 2 w /\
    forall r c, (r < 2)%nat -> (c < 2)%nat ->
      get w r c = - (get dxx r c + get dyy r c).
Proof.
  apply (vorticity_of_stream_function 2 2 [[1; 2]; [3; 5]]); try lia.
  split; [reflexivity | repeat constructor].
Defined.

(** ** The checks on a stream function *)

Lemma amax_zero_field (N M : nat) :
  (1 <= N)%nat -> (1 <= M)%nat ->
  amax (map Rabs (concat (tabulate N M (fun _ _ => 0)))) = Ok 0.
Proof.
  intros HN HM. apply amax_unique.
  - apply in_map_iff. exists 0. split; [apply Rabs_R0|].
    rewrite <- (get_tabulate N M (fun _ _ => 0) 0 0) at 1 by lia.
    apply (In_get_concat N M); [apply rect_tabulate | lia | lia].
  - intros x Hx. apply in_map_iff in Hx. destruct Hx as (y & <- & Hy).
    apply concat_tabulate_const in Hy. subst y. rewrite Rabs_R0. lra.
Qed.

Lemma square_tabulate (n m : nat) (F : nat -> nat -> R) :
  square (tabulate n m F) = tabulate n m (fun r c => F r c * F r c).
Proof. apply map_map_tabulate. Qed.

(** X10.  For [vx = ddy(psi)], [vy = -ddx(psi)] on a field of shape
    [(N, M)], [N, M >= 1], the two checks of the test,
    [A = vx ddx(psi) + vy ddy(psi)] and
    [B = vx^2 + vy^2 - ddx(psi)^2 - ddy(psi)^2], are the zero field, so
    that their maximum absolute value is below [1e-10]. *)
Theorem stream_checks_vanish (N M : nat) (psi : list (list R)) :
  rect N M psi -> (1 <= N)%nat -> (1 <= M)%nat ->
  exists A B max_A max_B,
    stream_checks psi = Ok (A, B) /\
    rect N M A /\ rect N M B /\
    (forall r c, (r < N)%nat -> (c < M)%nat ->
       get A r c = 0 /\ get B r c = 0) /\
    amax (map Rabs (concat A)) = Ok max_A /\
    amax (map Rabs (concat B)) = Ok max_B /\
    max_A < 1 / 10 ^ 10 /\ max_B < 1 / 10 ^ 10.
Proof.
  intros Hpsi HN HM. rewrite (field_tabulate N M psi Hpsi).
  generalize (get psi). intros F.
  assert (Htol : 0 < 1 / 10 ^ 10)
    by (apply Rdiv_lt_0_compat; [lra | apply pow_lt; lra]).
  exists (tabulate N M (fun _ _ => 0)), (tabulate N M (fun _ _ => 0)), 0, 0.
  split; [|split; [apply rect_tabulate|split; [apply rect_tabulate|]]].
  - unfold stream_checks.
    rewrite !ddy_tabulate by assumption. cbn [bind].
    rewrite !ddx_tabulate by assumption. cbn [bind].
    rewrite map_map_tabulate, !square_tabulate.
    rewrite (broadcast2_tabulate Rmult). cbn [bind].
    rewrite (broadcast2_tabulate Rmult). cbn [bind].
    rewrite (broadcast2_tabulate Rplus). cbn [bind].
    rewrite (broadcast2_tabulate Rplus). cbn [bind].
    rewrite (broadcast2_tabulate Rminus). cbn [bind].
    rewrite (broadcast2_tabulate Rminus). cbn [bind].
    do 2 f_equal; apply tabulate_ext; intros r c _ _; ring.
  - split; [|split; [|split; [|split]]]; try exact Htol.
    + intros r c Hr Hc. now rewrite get_tabulate.
    + now apply amax_zero_field.
    + now apply amax_zero_field.
Qed.

Lemma stream_checks_vanish_witness :
  exists A B max_A max_B,
    stream_checks [[1; 2; 0]; [3; 5; 1]] = Ok (A, B) /\
    rect 2 3 A /\ rect 2 3 B /\
    (forall r c, (r < 2)%nat -> (c < 3)%nat ->
       get A r c = 0 /\ get B r c = 0) /\
    amax (map Rabs (concat A)) = Ok max_A /\
    amax (map Rabs (concat B)) = Ok max_B /\
    max_A < 1 / 10 ^ 10 /\ max_B < 1 / 10 ^ 10.
Proof.
  apply (stream_checks_vanish 2 3 [[1; 2; 0]; [3; 5; 1]]); try lia.
  split; [reflexivity | repeat constructor].
Defined.

Lemma floor15_pos : 0 < floor15.
Proof. unfold floor15. apply Rdiv_lt_0_compat; [lra | apply pow_lt; lra]. Qed.

(** X11.  For [psi], [vx], [vy] of one shape [(N, M)], [N, M >= 1], the
    three arrays [plotNumericalChecks] displays have that shape and every
    value in them is at least [1e-15 > 0]: the logarithmic colour scale with
    [vmin = 1e-15] never meets a value it cannot take. *)
Theorem numerical_checks_positive (N M : nat) (psi vx vy : list (list R)) :
  rect N M psi -> rect N M vx -> rect N M vy ->
  (1 <= N)%nat -> (1 <= M)%nat ->
  exists continuity A B,
    numerical_checks psi vx vy = Ok (continuity, A, B) /\
    rect N M continuity /\ rect N M A /\ rect N M B /\
    0 < floor15 /\
    forall r c, (r < N)%nat -> (c < M)%nat ->
      floor15 <= get continuity r c /\
      floor15 <= get A r c /\
      floor15 <= get B r c.
Proof.
  intros Hpsi Hvx Hvy HN HM.
  rewrite (field_tabulate N M psi Hpsi). generalize (get psi). intros F.
  rewrite (field_tabulate N M vx Hvx). generalize (get vx). intros G.
  rewrite (field_tabulate N M vy Hvy). generalize (get vy). intros H.
  do 3 eexists. split.
  - unfold numerical_checks.
    rewrite !ddx_tabulate by assumption. cbn [bind].
    rewrite !ddy_tabulate by assumption. cbn [bind].
    rewrite !square_tabulate.
    rewrite (broadcast2_tabulate Rplus). cbn [bind].
    rewrite (broadcast2_tabulate Rmult). cbn [bind].
    rewrite (broadcast2_tabulate Rmult). cbn [bind].
    rewrite (broadcast2_tabulate Rplus). cbn [bind].
    rewrite (broadcast2_tabulate Rplus). cbn [bind].
    rewrite (broadcast2_tabulate Rminus). cbn [bind].
    rewrite (broadcast2_tabulate Rminus). cbn [bind].
    unfold abs_floor. rewrite !map_map_tabulate. reflexivity.
  - split; [apply rect_tabulate|]. split; [apply rect_tabulate|].
    split; [apply rect_tabulate|]. split; [apply floor15_pos|].
    intros r c Hr Hc. rewrite !get_tabulate by assumption.
    repeat split;
      match goal with
      | |- _ <= Rabs ?x + _ => pose proof (Rabs_pos x); lra
      end.
Qed.

Lemma numerical_checks_positive_witness :
  exists continuity A B,
    numerical_checks [[1; 2]; [3; 5]] [[0; 1]; [1; 0]] [[2; 2]; [1; 4]]
    = Ok (continuity, A, B) /\
    rect 2 2 continuity /\ rect 2 2 A /\ rect 2 2 B /\
    0 < floor15 /\
    forall r c, (r < 2)%nat -> (c < 2)%nat ->
      floor15 <= get continuity r c /\
      floor15 <= get A r c /\
      floor15 <= get B r c.
Proof.
  apply (numerical_checks_positive 2 2
           [[1; 2]; [3; 5]] [[0; 1]; [1; 0]] [[2; 2]; [1; 4]]);
    try lia; (split; [reflexivity | repeat constructor]).
Defined.

(** ** The two regions of the Okubo-Weiss plot *)

(** X12.  [plotOkuboWeissField] splits [Q] without loss: on a field of any
    shape [(N, M)], [(Q < 0) * Q] is [min(Q, 0)] and [(Q > 0) * Q] is
    [max(Q, 0)] entry by entry, so the first is never positive, the second
    never negative, at most one of them is non-zero at a point, and they add
    up to [Q]. *)
Theorem okubo_regions (N M : nat) (Q : list (list R)) :
  rect N M Q ->
  exists V S,
    vorticity_part Q = Ok V /\ strain_part Q = Ok S /\
    rect N M V /\ rect N M S /\
    forall r c, (r < N)%nat -> (c < M)%nat ->
      get V r c = Rmin (get Q r c) 0 /\
      get S r c = Rmax (get Q r c) 0 /\
      get V r c <= 0 <= get S r c /\
      get V r c * get S r c = 0 /\
      get V r c + get S r c = get Q r c.
Proof.
  intros HQ. rewrite (field_tabulate N M Q HQ).
  generalize (get Q). intros F.
  do 2 eexists. split; [|split].
  - unfold vorticity_part. rewrite map_map_tabulate.
    apply (broadcast2_tabulate bool_times).
  - unfold strain_part. rewrite map_map_tabulate.
    apply (broadcast2_tabulate bool_times).
  - split; [apply rect_tabulate|]. split; [apply rect_tabulate|].
    intros r c Hr Hc. rewrite !get_tabulate by assumption.
    unfold bool_times, Rmin, Rmax.
    destruct (Rlt_dec (F r c) 0), (Rlt_dec 0 (F r c)),
      (Rle_dec (F r c) 0); repeat split; lra.
Qed.

Lemma okubo_regions_witness :
  exists V S,
    vorticity_part [[1; -2]; [0; 3]] = Ok V /\
    strain_part [[1; -2]; [0; 3]] = Ok S /\
    rect 2 2 V /\ rect 2 2 S /\
    forall r c, (r < 2)%nat -> (c < 2)%nat ->
      get V r c = Rmin (get [[1; -2]; [0; 3]] r c) 0 /\
      get S r c = Rmax (get [[1; -2]; [0; 3]] r c) 0 /\
      get V r c <= 0 <= get S r c /\
      get V r c * get S r c = 0 /\
      get V r c + get S r c = get [[1; -2]; [0; 3]] r c.
Proof.
  apply (okubo_regions 2 2 [[1; -2]; [0; 3]]).
  split; [reflexivity | repeat constructor].
Defined.

(** ** The symmetric colour scale *)

Lemma fold_Rmin_le (l : list R) (a : R) : fold_left Rmin l a <= a.
Proof.
  revert a. induction l as [|x l IH]; intros a; simpl; [lra|].
  eapply Rle_trans; [apply IH | apply Rmin_l].
Qed.

Lemma fold_Rmin_bound (l : list R) (a x : R) :
  In x l -> fold_left Rmin l a <= x.
Proof.
  revert a. induction l as [|y l IH]; intros a; simpl; [tauto|].
  intros [->|Hin]; [|now apply IH].
  eapply Rle_trans; [apply fold_Rmin_le | apply Rmin_r].
Qed.

Lemma fold_Rmin_In (l : list R) (a : R) :
  fold_left Rmin l a = a \/ In (fold_left Rmin l a) l.
Proof.
  revert a. induction l as [|y l IH]; intros a; simpl; [now left|].
  destruct (IH (Rmin a y)) as [E|Hin]; [|now right; right].
  rewrite E. unfold Rmin. destruct (Rle_dec a y); [now left | right; now left].
Qed.

Lemma amin_spec (l : list R) :
  l <> [] ->
  exists mn, amin l = Ok mn /\ In mn l /\ forall x, In x l -> mn <= x.
Proof.
  destruct l as [|a l]; [congruence|]. intros _.
  exists (fold_left Rmin l a). split; [reflexivity|]. split.
  - destruct (fold_Rmin_In l a) as [E|Hin]; [rewrite E; now left | now right].
  - intros x [<-|Hin]; [apply fold_Rmin_le | now apply fold_Rmin_bound].
Qed.

(** X13.  The half-width [r] of the colour scale of a field of shape
    [(N, M)], [N, M >= 1], is its maximum absolute value: it is not
    negative and every value lies in [[-r, r]]. *)
Theorem color_range_spec (N M : nat) (a : list (list R)) :
  rect N M a -> (1 <= N)%nat -> (1 <= M)%nat ->
  exists r,
    color_range a = Ok r /\
    amax (map Rabs (concat a)) = Ok r /\
    0 <= r /\
    forall i j, (i < N)%nat -> (j < M)%nat -> - r <= get a i j <= r.
Proof.
  intros Ha HN HM.
  assert (Hne : concat a <> []).
  { intros E. pose proof (In_get_concat N M a 0 0 Ha HN HM) as H.
    rewrite E in H. destruct H. }
  destruct (amin_spec _ Hne) as (lo & Elo & Ilo & Blo).
  destruct (amax_spec _ Hne) as (hi & Ehi & Ihi & Bhi).
  exists (Rmax (- lo) hi).
  assert (Hbound : forall v, In v (concat a) -> Rabs v <= Rmax (- lo) hi).
  { intros v Hv. pose proof (Blo v Hv). pose proof (Bhi v Hv).
    pose proof (Rmax_l (- lo) hi). pose proof (Rmax_r (- lo) hi).
    apply Rabs_le. lra. }
  split; [|split; [|split]].
  - unfold color_range. rewrite Elo, Ehi. reflexivity.
  - apply amax_unique.
    + unfold Rmax. destruct (Rle_dec (- lo) hi) as [H|H].
      * apply in_map_iff. exists hi. split; [|assumption].
        apply Rabs_right. pose proof (Blo hi Ihi). lra.
      * apply in_map_iff. exists lo. split; [|assumption].
        rewrite Rabs_left1; [reflexivity|]. pose proof (Bhi lo Ilo). lra.
    + intros x Hx. apply in_map_iff in Hx. destruct Hx as (v & <- & Hv).
      now apply Hbound.
  - eapply Rle_trans; [apply Rabs_pos | apply (Hbound lo Ilo)].
  - intros i j Hi Hj. apply Rabs_bound, Hbound.
    now apply (In_get_concat N M).
Qed.

Lemma color_range_spec_witness :
  exists r,
    color_range [[1; -3]; [2; 0]] = Ok r /\
    amax (map Rabs (concat [[1; -3]; [2; 0]])) = Ok r /\
    0 <= r /\
    forall i j, (i < 2)%nat -> (j < 2)%nat ->
      - r <= get [[1; -3]; [2; 0]] i j <= r.
Proof.
  apply (color_range_spec 2 2 [[1; -3]; [2; 0]]); try lia.
  split; [reflexivity | repeat constructor].
Defined.

(** ** [getOkuboWeiss] on fields that are not square *)

Lemma fft2_real_rect (N M : nat) (psi : list (list R)) :
  rect N M psi -> (1 <= N)%nat -> (1 <= M)%nat ->
  exists G, fft2 (map (map RtoC) psi) = Ok (tabulate N M G).
Proof.
  intros Hpsi HN HM.
  pose proof (rect_map_map N M RtoC psi Hpsi) as Hc.
  unfold fft2, dft2.
  rewrite (rect_nrows N M _ Hc), (rect_ncols N M _ Hc HN).
  destruct (Nat.eqb_spec N 0) as [E|_]; [lia|].
  destruct (Nat.eqb_spec M 0) as [E|_]; [lia|].
  cbn [orb]. eexists. unfold tabulate. reflexivity.
Qed.

Lemma okubo_partials_start (N M : nat) (psi : list (list R)) :
  rect N M psi -> (1 <= N)%nat -> (1 <= M)%nat ->
  exists G,
    okubo_partials psi
    = (mxy <- Ok (tabulate N N (fun r c =>
                    Cmul (Cmul two_pi_i
                            (RtoC (IZR (mode N c) * (1 / (INR N * 1)))))
                         (Cmul two_pi_i
                            (RtoC (IZR (mode N r) * (1 / (INR N * 1))))))) ;;
       hxy <- broadcast2 Cmul mxy (tabulate N M G) ;;
       ixy <- ifft2 hxy ;;
       hxx <- broadcast2 Cmul
                (tabulate N N (fun r c =>
                   Cmul (Cmul two_pi_i
                           (RtoC (IZR (mode N c) * (1 / (INR N * 1)))))
                        (Cmul two_pi_i
                           (RtoC (IZR (mode N c) * (1 / (INR N * 1)))))))
                (tabulate N M G) ;;
       ixx <- ifft2 hxx ;;
       hyy <- broadcast2 Cmul
                (tabulate N N (fun r c =>
                   Cmul (Cmul two_pi_i
                           (RtoC (IZR (mode N r) * (1 / (INR N * 1)))))
                        (Cmul two_pi_i
                           (RtoC (IZR (mode N r) * (1 / (INR N * 1)))))))
                (tabulate N M G) ;;
       iyy <- ifft2 hyy ;;
       Ok (creal ixy, creal ixx, creal iyy)).
Proof.
  intros Hpsi HN HM.
  destruct (fft2_real_rect N M psi Hpsi HN HM) as (G & EG).
  exists G. unfold okubo_partials.
  rewrite (rect_nrows N M psi Hpsi).
  rewrite fftfreq_table by assumption. cbn [bind].
  rewrite meshgrid_tables, EG. cbn [bind].
  unfold ik, csquare. rewrite !map_map_tabulate.
  rewrite (broadcast2_tabulate Cmul). reflexivity.
Qed.

(** X14.  On a field of shape [(N, M)] with [N <> M] and [N, M >= 2],
    [getOkuboWeiss] raises [ValueError]: the wavenumber grids have shape
    [(N, N)] and cannot be multiplied with the [(N, M)] transform. *)
Theorem getOkuboWeiss_not_square (N M : nat) (psi : list (list R)) :
  rect N M psi -> (2 <= N)%nat -> (2 <= M)%nat -> N <> M ->
  getOkuboWeiss psi = Raise ValueError.
Proof.
  intros Hpsi HN HM Hne.
  destruct (okubo_partials_start N M psi Hpsi) as (G & E); try lia.
  unfold getOkuboWeiss. rewrite E. cbn [bind].
  rewrite broadcast2_raise; [reflexivity|]. right.
  rewrite (rect_ncols N N _ (rect_tabulate N N _)) by lia.
  rewrite (rect_ncols N M _ (rect_tabulate N M _)) by lia.
  apply bdim_none. lia.
Qed.

Lemma getOkuboWeiss_not_square_witness :
  getOkuboWeiss [[1; 2; 3]; [4; 5; 6]] = Raise ValueError.
Proof.
  apply (getOkuboWeiss_not_square 2 3 [[1; 2; 3]; [4; 5; 6]]); try lia.
  split; [reflexivity | repeat constructor].
Defined.

Lemma stretch_square_tabulate {T : Type} (N : nat) (A : nat -> nat -> T) :
  stretch N (map (stretch N) (tabulate N N A)) = tabulate N N A.
Proof.
  assert (E : map (stretch N) (tabulate N N A) = tabulate N N A).
  { unfold tabulate. rewrite map_map. apply map_ext. intros r.
    apply stretch_id, length_map_seq. }
  rewrite E. apply stretch_id, rect_tabulate.
Qed.

Lemma stretch_column_tabulate {T : Type} (N : nat) (G : nat -> nat -> T) :
  stretch N (map (stretch N) (tabulate N 1 G))
  = tabulate N N (fun r _ => G r 0%nat).
Proof.
  assert (E : map (stretch N) (tabulate N 1 G)
              = tabulate N N (fun r _ => G r 0%nat)).
  { unfold tabulate. rewrite map_map. apply map_ext. intros r.
    cbn [seq map stretch]. apply repeat_table. }
  rewrite E. apply stretch_id, rect_tabulate.
Qed.

Lemma broadcast2_column {T U V : Type} (f : T -> U -> V) (N : nat)
    (A : nat -> nat -> T) (G : nat -> nat -> U) :
  (2 <= N)%nat ->
  broadcast2 f (tabulate N N A) (tabulate N 1 G)
  = Ok (tabulate N N (fun r c => f (A r c) (G r 0%nat))).
Proof.
  intros HN. rewrite (broadcast2_ok f N N).
  - rewrite stretch_square_tabulate, stretch_column_tabulate.
    now rewrite zipWith_tabulate.
  - rewrite !(rect_nrows N _ _ (rect_tabulate N _ _)). apply bdim_same.
  - rewrite (rect_ncols N N _ (rect_tabulate N N _)) by lia.
    rewrite (rect_ncols N 1 _ (rect_tabulate N 1 _)) by lia.
    unfold bdim.
    destruct (Nat.eqb_spec N 1); [lia | reflexivity].
Qed.

(** X15.  A column, though, is not rejected: on a field of shape [(N, 1)],
    [N >= 2], the product with the wavenumber grids broadcasts the single
    column and [getOkuboWeiss] returns a field of shape [(N, N)], not the
    shape of its input. *)
Theorem getOkuboWeiss_column (N : nat) (psi : list (list R)) :
  rect N 1 psi -> (2 <= N)%nat ->
  exists Q, getOkuboWeiss psi = Ok Q /\ rect N N Q.
Proof.
  intros Hpsi HN.
  destruct (okubo_partials_start N 1 psi Hpsi) as (G & E); try lia.
  eexists. split; [|apply rect_tabulate].
  unfold getOkuboWeiss. rewrite E. cbn [bind].
  rewrite !broadcast2_column by assumption. cbn [bind].
  rewrite !ifft2_tabulate by lia. cbn [bind].
  unfold creal. rewrite !map_map_tabulate.
  rewrite !(broadcast2_tabulate Rmult). cbn [bind].
  apply (broadcast2_tabulate Rminus).
Qed.

Lemma getOkuboWeiss_column_witness :
  exists Q, getOkuboWeiss [[1]; [2]; [4]] = Ok Q /\ rect 3 3 Q.
Proof.
  apply (getOkuboWeiss_column 3 [[1]; [2]; [4]]); [|lia].
  split; [reflexivity | repeat constructor].
Defined.

(** ** [getOkuboWeiss] as a quadratic form *)

Lemma getOkuboWeiss_table (N : nat) (psi : list (list R)) :
  rect N N psi -> (1 <= N)%nat ->
  getOkuboWeiss psi
  = Ok (tabulate N N (fun r c =>
      psi_xy_formula psi r c * psi_xy_formula psi r c
      - psi_xx_formula psi r c * psi_yy_formula psi r c)).
Proof.
  intros Hpsi HN. unfold getOkuboWeiss.
  rewrite (okubo_partials_table N psi Hpsi HN). cbn [bind].
  rewrite !(broadcast2_tabulate Rmult). cbn [bind].
  apply (broadcast2_tabulate Rminus).
Qed.

Lemma inverse2_formula_lin2 (mult : nat -> nat -> C) (a b : nat -> C)
    (N : nat) (psi : list (list R)) (r c : nat) :
  rect N N psi -> (1 <= N)%nat ->
  (forall u v, mult u v = Cmul (a u) (b v)) ->
  inverse2_formula mult psi r c = lin2 N (Wgen a b N) (get psi) r c.
Proof.
  intros Hpsi HN Hmult.
  rewrite (inverse2_formula_kernel mult a b N psi r c Hpsi HN Hmult).
  unfold lin2, Wgen. rewrite Cre_sum. apply Rsum_ext. intros r' _.
  rewrite Cre_sum. apply Rsum_ext. intros c' _. apply Cre_scale.
Qed.

Lemma partials_lin2 (N : nat) (psi : list (list R)) (r c : nat) :
  rect N N psi -> (1 <= N)%nat ->
  psi_xy_formula psi r c = lin2 N (Wxy N) (get psi) r c /\
  psi_xx_formula psi r c = lin2 N (Wxx N) (get psi) r c /\
  psi_yy_formula psi r c = lin2 N (Wyy N) (get psi) r c.
Proof.
  intros Hpsi HN.
  unfold psi_xy_formula, psi_xx_formula, psi_yy_formula, Wxy, Wxx, Wyy.
  rewrite (rect_nrows N N psi Hpsi).
  repeat split; apply inverse2_formula_lin2; try assumption;
    intros; unfold ikx, iky; ring.
Qed.

Lemma lin2_ext (N : nat) (W : nat -> nat -> nat -> nat -> R)
    (F G : nat -> nat -> R) (r c : nat) :
  (forall r' c', (r' < N)%nat -> (c' < N)%nat -> F r' c' = G r' c') ->
  lin2 N W F r c = lin2 N W G r c.
Proof.
  intros H. unfold lin2. apply Rsum_ext. intros r' Hr'.
  apply Rsum_ext. intros c' Hc'. now rewrite H.
Qed.

Lemma lin2_scale (N : nat) (W : nat -> nat -> nat -> nat -> R)
    (F : nat -> nat -> R) (s : R) (r c : nat) :
  lin2 N W (fun r' c' => s * F r' c') r c = s * lin2 N W F r c.
Proof.
  unfold lin2. rewrite Rsum_mul_l. apply Rsum_ext. intros r' _.
  rewrite Rsum_mul_l. apply Rsum_ext. intros c' _. ring.
Qed.

Lemma lin2_add (N : nat) (W : nat -> nat -> nat -> nat -> R)
    (F G : nat -> nat -> R) (r c : nat) :
  lin2 N W (fun r' c' => F r' c' + G r' c') r c
  = lin2 N W F r c + lin2 N W G r c.
Proof.
  unfold lin2. rewrite <- Rsum_add. apply Rsum_ext. intros r' _.
  rewrite <- Rsum_add. apply Rsum_ext. intros c' _. ring.
Qed.

Lemma kernel_row_sum (g : nat -> C) (N n : nat) :
  (1 <= N)%nat -> Csum (fun m => Kc g N n m) N = g 0%nat.
Proof.
  intros HN.
  rewrite (Csum_ext _ (fun m =>
    Cmul (Cexp (2 * PI * INR 0 * INR m / INR N)) (Kc g N n m)))
    by (intros; rewrite angle_zero, Cexp_0; ring).
  rewrite kernel_mode by lia. rewrite angle_zero, Cexp_0. ring.
Qed.

(** A uniform field has no second partials. *)
Lemma lin2_constant (a b : nat -> C) (N : nat) (k : R) (r c : nat) :
  (1 <= N)%nat ->
  Cmul (a 0%nat) (b 0%nat) = C0 ->
  lin2 N (Wgen a b N) (fun _ _ => k) r c = 0.
Proof.
  intros HN Hz. unfold lin2, Wgen.
  rewrite (Rsum_ext _ (fun r' =>
    k * Cre (Cmul (Kc a N r r') (b 0%nat)))).
  - rewrite <- Rsum_mul_l, <- Cre_sum, <- Csum_mul_r.
    rewrite kernel_row_sum, Hz by assumption. Calg.
  - intros r' _. rewrite <- Rsum_mul_l, <- Cre_sum, <- Csum_mul_l.
    now rewrite kernel_row_sum.
Qed.

Lemma iomega_zero (N : nat) : iomega N 0 = C0.
Proof. unfold iomega. rewrite omega_zero. Calg. Qed.

Lemma partials_constant (N : nat) (k : R) (r c : nat) :
  (1 <= N)%nat ->
  lin2 N (Wxy N) (fun _ _ => k) r c = 0 /\
  lin2 N (Wxx N) (fun _ _ => k) r c = 0 /\
  lin2 N (Wyy N) (fun _ _ => k) r c = 0.
Proof.
  intros HN. unfold Wxy, Wxx, Wyy.
  repeat split; apply lin2_constant; try assumption;
    rewrite !iomega_zero; ring.
Qed.

(** X16.  [getOkuboWeiss] is homogeneous of degree two: on a square field
    of side [N >= 1], [getOkuboWeiss(s * psi) = s^2 * getOkuboWeiss(psi)]. *)
Theorem getOkuboWeiss_homogeneous (N : nat) (s : R) (psi : list (list R)) :
  rect N N psi -> (1 <= N)%nat ->
  exists Q,
    getOkuboWeiss psi = Ok Q /\
    getOkuboWeiss (map (map (fun v => s * v)) psi)
    = Ok (map (map (fun q => s * s * q)) Q).
Proof.
  intros Hpsi HN.
  pose proof (rect_map_map N N (fun v => s * v) psi Hpsi) as Hs.
  eexists. split; [apply (getOkuboWeiss_table N psi Hpsi HN)|].
  rewrite (getOkuboWeiss_table N _ Hs HN), map_map_tabulate. f_equal.
  apply tabulate_ext. intros r c _ _.
  destruct (partials_lin2 N psi r c Hpsi HN) as (Exy & Exx & Eyy).
  destruct (partials_lin2 N _ r c Hs HN) as (Sxy & Sxx & Syy).
  rewrite Exy, Exx, Eyy, Sxy, Sxx, Syy.
  rewrite !(lin2_ext N _ (get (map (map (fun v => s * v)) psi))
              (fun r' c' => s * get psi r' c'))
    by (intros; now apply (get_map_map N N)).
  rewrite !lin2_scale. ring.
Qed.

Lemma getOkuboWeiss_homogeneous_witness :
  exists Q,
    getOkuboWeiss [[1; 2]; [3; 5]] = Ok Q /\
    getOkuboWeiss (map (map (fun v => 3 * v)) [[1; 2]; [3; 5]])
    = Ok (map (map (fun q => 3 * 3 * q)) Q).
Proof.
  apply (getOkuboWeiss_homogeneous 2 3 [[1; 2]; [3; 5]]); [|lia].
  split; [reflexivity | repeat constructor].
Defined.

(** X17.  [getOkuboWeiss] does not see the level of the stream function:
    adding a constant to every value of a square field of side [N >= 1]
    leaves the result unchanged. *)
Theorem getOkuboWeiss_shift_invariant (N : nat) (k : R)
    (psi : list (list R)) :
  rect N N psi -> (1 <= N)%nat ->
  getOkuboWeiss (map (map (fun v => v + k)) psi) = getOkuboWeiss psi.
Proof.
  intros Hpsi HN.
  pose proof (rect_map_map N N (fun v => v + k) psi Hpsi) as Hs.
  rewrite (getOkuboWeiss_table N _ Hs HN), (getOkuboWeiss_table N _ Hpsi HN).
  f_equal. apply tabulate_ext. intros r c _ _.
  destruct (partials_lin2 N psi r c Hpsi HN) as (Exy & Exx & Eyy).
  destruct (partials_lin2 N _ r c Hs HN) as (Sxy & Sxx & Syy).
  destruct (partials_constant N k r c HN) as (Kxy & Kxx & Kyy).
  rewrite Exy, Exx, Eyy, Sxy, Sxx, Syy.
  rewrite !(lin2_ext N _ (get (map (map (fun v => v + k)) psi))
              (fun r' c' => get psi r' c' + (fun _ _ => k) r' c'))
    by (intros; now apply (get_map_map N N)).
  rewrite !lin2_add, Kxy, Kxx, Kyy. ring.
Qed.

Lemma getOkuboWeiss_shift_invariant_witness :
  getOkuboWeiss (map (map (fun v => v + 7)) [[1; 2]; [3; 5]])
  = getOkuboWeiss [[1; 2]; [3; 5]].
Proof.
  apply (getOkuboWeiss_shift_invariant 2 7 [[1; 2]; [3; 5]]); [|lia].
  split; [reflexivity | repeat constructor].
Defined.

Lemma lin2_transpose (N : nat) (W W' : nat -> nat -> nat -> nat -> R)
    (F : nat -> nat -> R) (r c : nat) :
  (forall r' c', W r c r' c' = W' c r c' r') ->
  lin2 N W (fun r' c' => F c' r') r c = lin2 N W' F c r.
Proof.
  intros H. unfold lin2. rewrite Rsum_swap.
  apply Rsum_ext. intros c' _. apply Rsum_ext. intros r' _.
  now rewrite H.
Qed.

(** X18.  [getOkuboWeiss] treats the two axes alike: on a square field of
    side [N >= 1], the result on the transposed field is the transpose of
    the result. *)
Theorem getOkuboWeiss_transpose (N : nat) (psi : list (list R)) :
  rect N N psi -> (1 <= N)%nat ->
  exists Q,
    getOkuboWeiss psi = Ok Q /\
    getOkuboWeiss (transpose psi) = Ok (transpose Q).
Proof.
  intros Hpsi HN.
  pose proof (rect_transpose N N psi Hpsi HN) as Ht.
  eexists. split; [apply (getOkuboWeiss_table N psi Hpsi HN)|].
  rewrite (getOkuboWeiss_table N _ Ht HN), transpose_tabulate by assumption.
  f_equal. apply tabulate_ext. intros r c _ _.
  destruct (partials_lin2 N psi c r Hpsi HN) as (Exy & Exx & Eyy).
  destruct (partials_lin2 N _ r c Ht HN) as (Sxy & Sxx & Syy).
  rewrite Exy, Exx, Eyy, Sxy, Sxx, Syy.
  rewrite !(lin2_ext N _ (get (transpose psi))
              (fun r' c' => get psi c' r'))
    by (intros; now apply (get_transpose N N)).
  rewrite (lin2_transpose N (Wxy N) (Wxy N) (get psi) r c)
    by (intros; unfold Wxy, Wgen; f_equal; ring).
  rewrite (lin2_transpose N (Wxx N) (Wyy N) (get psi) r c)
    by (intros; unfold Wxx, Wyy, Wgen; f_equal; ring).
  rewrite (lin2_transpose N (Wyy N) (Wxx N) (get psi) r c)
    by (intros; unfold Wxx, Wyy, Wgen; f_equal; ring).
  ring.
Qed.

Lemma getOkuboWeiss_transpose_witness :
  exists Q,
    getOkuboWeiss [[1; 2]; [3; 5]] = Ok Q /\
    getOkuboWeiss (transpose [[1; 2]; [3; 5]]) = Ok (transpose Q).
Proof.
  apply (getOkuboWeiss_transpose 2 [[1; 2]; [3; 5]]); [|lia].
  split; [reflexivity | repeat constructor].
Defined.

(** ** Periodicity *)

Lemma angle_zero_r (a y : R) : 2 * PI * a * INR 0 / y = 0.
Proof. simpl. unfold Rdiv. ring. Qed.

Lemma Cexp_wrap (N k m : nat) :
  (1 <= N)%nat -> (m < N)%nat ->
  Cexp (2 * PI * INR k * INR ((m + 1) mod N) / INR N)
  = Cmul (Cexp (2 * PI * INR k * INR m / INR N))
         (Cexp (2 * PI * INR k / INR N)).
Proof.
  intros HN Hm. pose proof (INR_pos N HN) as Hpos.
  rewrite <- Cexp_add.
  destruct (Nat.eq_dec (m + 1) N) as [E|E].
  - assert (EN : INR N = INR m + 1)
      by (rewrite <- E, plus_INR; reflexivity).
    rewrite E, Nat.Div0.mod_same, angle_zero_r.
    replace (2 * PI * INR k * INR m / INR N + 2 * PI * INR k / INR N)
      with (2 * PI * INR k) by (rewrite EN in *; field; lra).
    now rewrite Cexp_turns, Cexp_0.
  - rewrite Nat.mod_small by lia. f_equal.
    rewrite plus_INR. simpl INR. field. lra.
Qed.

Lemma Dk_rotate (N n m : nat) :
  (n < N)%nat -> (m < N)%nat ->
  Dk N ((n + 1) mod N) ((m + 1) mod N) = Dk N n m.
Proof.
  intros Hn Hm. assert (HN : (1 <= N)%nat) by lia.
  unfold Dk, Kc. do 2 f_equal. apply Csum_ext. intros k _.
  rewrite !Cexp_neg, !Cexp_wrap by assumption.
  set (e1 := Cexp (2 * PI * INR k * INR m / INR N)).
  set (e2 := Cexp (2 * PI * INR k * INR n / INR N)).
  pose proof (Cexp_conj_mul (2 * PI * INR k / INR N)) as Hu.
  set (w := Cexp (2 * PI * INR k / INR N)) in *.
  assert (Ec : Cconj (Cmul e1 w) = Cmul (Cconj e1) (Cconj w))
    by (unfold Cconj, Cmul; simpl; f_equal; ring).
  rewrite Ec.
  transitivity (Cmul (Cmul (Cmul (iomega N k) (Cconj e1)) e2)
                     (Cmul (Cconj w) w)); [ring|].
  rewrite Hu. ring.
Qed.

Lemma Rsum_rotate (f : nat -> R) (N : nat) :
  (1 <= N)%nat -> Rsum (fun m => f ((m + 1) mod N)%nat) N = Rsum f N.
Proof.
  intros HN. destruct N as [|n]; [lia|].
  rewrite (Rsum_shift f n). cbn [Rsum].
  replace ((n + 1) mod S n)%nat with 0%nat
    by (replace (n + 1)%nat with (S n) by lia;
        now rewrite Nat.Div0.mod_same).
  rewrite Rplus_comm. f_equal.
  apply Rsum_ext. intros k Hk. f_equal.
  rewrite Nat.mod_small; lia.
Qed.

Lemma rotate1_table (N : nat) (X : nat -> R) :
  (1 <= N)%nat ->
  rotate1 (map X (seq 0 N))
  = map (fun m => X ((m + 1) mod N)%nat) (seq 0 N).
Proof.
  intros HN. destruct N as [|n]; [lia|].
  rewrite seq_S at 2. rewrite map_app. cbn [seq map rotate1 Nat.add].
  replace ((n + 1) mod S n)%nat with 0%nat
    by (replace (n + 1)%nat with (S n) by lia;
        now rewrite Nat.Div0.mod_same).
  f_equal. rewrite <- seq_shift, map_map.
  apply map_ext_in. intros k Hk. apply in_seq in Hk. f_equal.
  rewrite Nat.mod_small; lia.
Qed.

(** X19.  [spectralDeriv] has no boundary: moving the input one sample
    round the period moves the output the same way. *)
Theorem spectralDeriv_rotation (x : list R) :
  (1 <= length x)%nat ->
  exists dx,
    spectralDeriv x = Ok dx /\
    spectralDeriv (rotate1 x) = Ok (rotate1 dx).
Proof.
  intros Hx. set (N := length x) in *.
  rewrite (table_of_list x 0). fold N. generalize (fun i => nth i x 0).
  intros X. eexists. split; [now apply spectralDeriv_tabulated|].
  rewrite !rotate1_table by assumption.
  rewrite spectralDeriv_tabulated by assumption. f_equal.
  apply map_seq_ext. intros n Hn.
  rewrite <- (Rsum_rotate (fun m => X m * Dk N ((n + 1) mod N) m) N)
    by assumption.
  apply Rsum_ext. intros m Hm. now rewrite Dk_rotate.
Qed.

Lemma spectralDeriv_rotation_witness :
  exists dx,
    spectralDeriv [3; 1; 4; 1] = Ok dx /\
    spectralDeriv (rotate1 [3; 1; 4; 1]) = Ok (rotate1 dx).
Proof. apply (spectralDeriv_rotation [3; 1; 4; 1]). simpl. lia. Defined.
